(** * billy: the transaction model ([billy/models/transaction.py])

    A shallow embedding of [TransactionModel]: the SQLAlchemy session is an
    explicit store of ORM objects addressed by reference, the payment
    processor is a stateful oracle, and every method is a computation in a
    small state-and-exception monad.  Each interaction with the processor and
    each [session.flush()] is appended to a trace, so that statements about
    what was sent to the gateway, and about what was persisted before what,
    can be read off the final world.

    Modelled: [create], [update], [process_one], [process_transactions] and
    the three read-only queries.  The calls to the logger, which touch
    neither the session nor the gateway, are left out.
    [maximum_retry] is an explicit argument; its default is
    [DEFAULT_MAXIMUM_RETRY].

    Two things the code leaves to its environment are kept open here as
    well.  The order in which the database yields the rows of a query
    without [order_by] is a parameter.  An exception carries a unicode or a
    byte-string message, and [unicode(e)] decodes a byte string with the
    ASCII codec of Python 2, which fails on a byte outside ASCII. *)

From Stdlib Require Import ZArith Lia.
From stdpp Require Import base option list strings gmap pretty sorting.

(** ** Python exceptions and outcomes *)

(** Classes below [Exception] that the module raises or that a processor may
    raise; [OtherError] names any further subclass of [Exception].
    [UnicodeDecodeError] is what the interpreter raises when a byte string
    cannot be decoded. *)
Inductive exc_class :=
  | ValueError
  | TypeError
  | NotFound
  | UnboundLocalError
  | UnicodeDecodeError
  | OtherError (name : string).

(** The argument an exception is raised with.  The module is Python 2 code
    ([except Exception, e], [unicode]): a message is a unicode object or a
    byte string.  The messages the module itself raises are unicode objects
    ([unicode_literals]); a processor may raise either kind. *)
Inductive message :=
  | Text (s : string)
  | Bytes (s : string).

Coercion Text : string >-> message.

(** [SystemExit] and [KeyboardInterrupt] derive from [BaseException] only;
    everything a handler [except Exception, e] catches is an [Exception]. *)
Inductive exn :=
  | SystemExit
  | KeyboardInterrupt
  | Exception (cls : exc_class) (msg : message).

Inductive Outcome (A : Type) :=
  | Returns (a : A)
  | Raises (e : exn).
Arguments Returns {A} a.
Arguments Raises {A} e.

(** The default codec of Python 2 is ASCII: a byte decodes when it is below
    128.  [first_undecodable] finds the first byte of a byte string that
    does not, with its position. *)
Definition is_ascii_byte (c : Ascii.ascii) : bool :=
  (Ascii.N_of_ascii c <? 128)%N.

Fixpoint first_undecodable (s : string) (position : nat) : option (nat * Ascii.ascii) :=
  match s with
  | EmptyString => None
  | String c s' =>
      if is_ascii_byte c then first_undecodable s' (S position)
      else Some (position, c)
  end.

(** The two hexadecimal digits of a byte, as the codec's error prints it. *)
Definition hex_digit (n : N) : Ascii.ascii :=
  Ascii.ascii_of_N (if (n <? 10)%N then 48 + n else 87 + n).

Definition hex_byte (c : Ascii.ascii) : string :=
  let n := Ascii.N_of_ascii c in
  String (hex_digit (n / 16)) (String (hex_digit (n mod 16)) EmptyString).

Definition decode_ascii (s : string) : Outcome string :=
  match first_undecodable s 0 with
  | None => Returns s
  | Some (position, c) =>
      Raises (Exception UnicodeDecodeError
                ("'ascii' codec can't decode byte 0x" +:+ hex_byte c
                 +:+ " in position " +:+ pretty position
                 +:+ ": ordinal not in range(128)"))
  end.

(** [unicode(e)]: the exception's message as a unicode object.  A unicode
    message is returned as it is; a byte string is decoded with the default
    codec, and the call raises [UnicodeDecodeError] when it holds a byte
    outside ASCII. *)
Definition unicode (e : exn) : Outcome string :=
  match e with
  | SystemExit | KeyboardInterrupt => Returns EmptyString
  | Exception _ (Text s) => Returns s
  | Exception _ (Bytes s) => decode_ascii s
  end.

(** The process-termination signals, re-raised by [process_one]. *)
Definition fatal (e : exn) : bool :=
  match e with
  | SystemExit | KeyboardInterrupt => true
  | Exception _ _ => false
  end.

(** The error kinds of the specification, read off the exception class. *)
Definition InvalidArgument (e : exn) : Prop :=
  match e with
  | Exception ValueError _ | Exception TypeError _ => True
  | _ => False
  end.

Definition is_NotFound (e : exn) : Prop :=
  match e with
  | Exception NotFound _ => True
  | _ => False
  end.

(** ** Tables *)

Record Customer := {
  customer_guid : string;
  customer_external_id : option string;
}.

Record Transaction := {
  guid : string;
  subscription_guid : string;
  transaction_type : Z;
  amount : Z;
  payment_uri : option string;
  status : Z;
  scheduled_at : Z;
  refund_to_guid : option string;
  external_id : option string;
  error_message : option string;
  failure_count : Z;
  created_at : Z;
  updated_at : Z;
}.

#[global] Instance exc_class_eq_dec : EqDecision exc_class.
Proof. solve_decision. Defined.
#[global] Instance message_eq_dec : EqDecision message.
Proof. solve_decision. Defined.
#[global] Instance exn_eq_dec : EqDecision exn.
Proof. solve_decision. Defined.
#[global] Instance Customer_eq_dec : EqDecision Customer.
Proof. solve_decision. Defined.
#[global] Instance Transaction_eq_dec : EqDecision Transaction.
Proof. solve_decision. Defined.

#[global] Instance Customer_inhabited : Inhabited Customer :=
  populate {| customer_guid := ""; customer_external_id := None |}.

#[global] Instance Transaction_inhabited : Inhabited Transaction :=
  populate {| guid := ""; subscription_guid := ""; transaction_type := 0;
              amount := 0; payment_uri := None; status := 0;
              scheduled_at := 0; refund_to_guid := None; external_id := None;
              error_message := None; failure_count := 0; created_at := 0;
              updated_at := 0 |}.

(** Attribute assignment on an ORM object. *)
Definition set_customer_external_id (v : option string) (c : Customer) : Customer :=
  {| customer_guid := customer_guid c; customer_external_id := v |}.

Definition set_status (v : Z) (t : Transaction) : Transaction :=
  {| guid := guid t; subscription_guid := subscription_guid t;
     transaction_type := transaction_type t; amount := amount t;
     payment_uri := payment_uri t; status := v;
     scheduled_at := scheduled_at t; refund_to_guid := refund_to_guid t;
     external_id := external_id t; error_message := error_message t;
     failure_count := failure_count t; created_at := created_at t;
     updated_at := updated_at t |}.

Definition set_external_id (v : option string) (t : Transaction) : Transaction :=
  {| guid := guid t; subscription_guid := subscription_guid t;
     transaction_type := transaction_type t; amount := amount t;
     payment_uri := payment_uri t; status := status t;
     scheduled_at := scheduled_at t; refund_to_guid := refund_to_guid t;
     external_id := v; error_message := error_message t;
     failure_count := failure_count t; created_at := created_at t;
     updated_at := updated_at t |}.

Definition set_error_message (v : option string) (t : Transaction) : Transaction :=
  {| guid := guid t; subscription_guid := subscription_guid t;
     transaction_type := transaction_type t; amount := amount t;
     payment_uri := payment_uri t; status := status t;
     scheduled_at := scheduled_at t; refund_to_guid := refund_to_guid t;
     external_id := external_id t; error_message := v;
     failure_count := failure_count t; created_at := created_at t;
     updated_at := updated_at t |}.

Definition set_failure_count (v : Z) (t : Transaction) : Transaction :=
  {| guid := guid t; subscription_guid := subscription_guid t;
     transaction_type := transaction_type t; amount := amount t;
     payment_uri := payment_uri t; status := status t;
     scheduled_at := scheduled_at t; refund_to_guid := refund_to_guid t;
     external_id := external_id t; error_message := error_message t;
     failure_count := v; created_at := created_at t;
     updated_at := updated_at t |}.

Definition set_updated_at (v : Z) (t : Transaction) : Transaction :=
  {| guid := guid t; subscription_guid := subscription_guid t;
     transaction_type := transaction_type t; amount := amount t;
     payment_uri := payment_uri t; status := status t;
     scheduled_at := scheduled_at t; refund_to_guid := refund_to_guid t;
     external_id := external_id t; error_message := error_message t;
     failure_count := failure_count t; created_at := created_at t;
     updated_at := v |}.

(** ** Class constants of [TransactionModel] *)

Definition DEFAULT_MAXIMUM_RETRY : Z := 10.

Definition TYPE_CHARGE : Z := 0.
Definition TYPE_REFUND : Z := 1.
Definition TYPE_PAYOUT : Z := 2.
Definition TYPE_ALL : list Z := [TYPE_CHARGE; TYPE_REFUND; TYPE_PAYOUT].

Definition STATUS_INIT : Z := 0.
Definition STATUS_RETRYING : Z := 1.
Definition STATUS_DONE : Z := 2.
Definition STATUS_FAILED : Z := 3.
Definition STATUS_CANCELED : Z := 4.
Definition STATUS_ALL : list Z :=
  [STATUS_INIT; STATUS_RETRYING; STATUS_DONE; STATUS_FAILED; STATUS_CANCELED].

(** Modelled from the spec: the column defaults of [tables.Transaction],
    which is not part of the sources at hand.  A new record starts with
    [failure_count = 0] and without [external_id] and [error_message]. *)
Definition default_failure_count : Z := 0.
Definition default_external_id : option string := None.
Definition default_error_message : option string := None.

(** ** The payment processor *)

(** The processor is external and stateful: each operation reads the gateway
    state [G], returns or raises, and leaves a new gateway state. *)
Record Processor (G : Type) := {
  create_customer : G -> Customer -> Outcome string * G;
  prepare_customer : G -> Customer -> option string -> Outcome unit * G;
  charge : G -> Transaction -> Outcome string * G;
  payout : G -> Transaction -> Outcome string * G;
  refund : G -> Transaction -> Outcome string * G;
}.
Arguments create_customer {G} _ _ _.
Arguments prepare_customer {G} _ _ _ _.
Arguments charge {G} _ _ _.
Arguments payout {G} _ _ _.
Arguments refund {G} _ _ _.

(** What an observer of the session and of the gateway sees, in order. *)
Inductive Event :=
  | EvCreateCustomer (c : Customer) (r : Outcome string)
  | EvPrepareCustomer (c : Customer) (uri : option string) (r : Outcome unit)
  | EvCharge (t : Transaction) (r : Outcome string)
  | EvPayout (t : Transaction) (r : Outcome string)
  | EvRefund (t : Transaction) (r : Outcome string)
  | EvFlush (rows : list Transaction) (people : list Customer).

Definition is_create_customer (ev : Event) : bool :=
  match ev with
  | EvCreateCustomer _ _ => true
  | _ => false
  end.

(** ** The order of an unordered query *)

(** A query without [order_by] yields its rows in the order in which the
    database happens to scan them.  [position] gives the place of each row
    in that scan; rows are yielded by ascending place.  Every arrangement of
    the rows is the scan of some [position]. *)
Definition scanned_first (position : nat -> nat) (a b : nat) : Prop :=
  position a <= position b.

#[global] Instance scanned_first_dec (position : nat -> nat) :
  RelDecision (scanned_first position).
Proof. intros a b. unfold scanned_first. apply _. Defined.

Definition scan (position : nat -> nat) (rows : list nat) : list nat :=
  merge_sort (scanned_first position) rows.

Section Model.

(** Gateway state and the processor handed to [process_one]. *)
Context {G : Type}.
Variable processor : Processor G.

(** [tables.now_func]: the reading of the clock at its n-th call. *)
Variable now_func : nat -> Z.

(** [make_guid]: the identifier produced at its n-th call. *)
Variable make_guid : nat -> string.

(** [transaction.subscription.customer]: the Subscription table is never
    written by this module; it maps a subscription guid to the reference of
    its customer object. *)
Variable customer_of : string -> nat.

(** ** The world: session objects, gateway, clock *)

(** ORM objects live in the session and are shared by reference; a reference
    is the position of the row in the order of insertion. *)
Record World := {
  transactions : list Transaction;
  customers : list Customer;
  gateway : G;
  clock : nat;
  guid_seed : nat;
  trace : list Event;
}.

Definition with_transactions (l : list Transaction) (w : World) : World :=
  {| transactions := l; customers := customers w; gateway := gateway w;
     clock := clock w; guid_seed := guid_seed w; trace := trace w |}.

Definition with_customers (l : list Customer) (w : World) : World :=
  {| transactions := transactions w; customers := l; gateway := gateway w;
     clock := clock w; guid_seed := guid_seed w; trace := trace w |}.

Definition with_gateway (g : G) (ev : Event) (w : World) : World :=
  {| transactions := transactions w; customers := customers w; gateway := g;
     clock := clock w; guid_seed := guid_seed w; trace := trace w ++ [ev] |}.

Definition with_event (ev : Event) (w : World) : World :=
  {| transactions := transactions w; customers := customers w;
     gateway := gateway w; clock := clock w; guid_seed := guid_seed w;
     trace := trace w ++ [ev] |}.

(** The database behind the session: for the world at the time of a query
    and the [guids] argument of [process_transactions], the place of each
    row in the scan that answers the query.  The code leaves that order to
    the database, and so does the model. *)
Variable scan_position : World -> option (list string) -> nat -> nat.

(** ** A state-and-exception monad *)

Definition M (A : Type) : Type := World -> Outcome A * World.

Definition ret {A} (a : A) : M A := fun w => (Returns a, w).

Definition raise {A} (e : exn) : M A := fun w => (Raises e, w).

(** A computation that touches nothing: it returns or raises what [o] does. *)
Definition lift {A} (o : Outcome A) : M A := fun w => (o, w).

Definition bind {A B} (m : M A) (k : A -> M B) : M B :=
  fun w =>
    match m w with
    | (Returns a, w') => k a w'
    | (Raises e, w') => (Raises e, w')
    end.

(** [try: body / except e: handler e / (fall through): rest]; the handlers
    of this module either re-raise or [return], so [handler] ends the
    method. *)
Definition try_except {A B} (body : M A) (handler : exn -> M B) (rest : A -> M B) : M B :=
  fun w =>
    match body w with
    | (Returns a, w') => rest a w'
    | (Raises e, w') => handler e w'
    end.

Notation "'let!' x ':=' m 'in' k" := (bind m (fun x => k))
  (at level 10, x pattern, m at level 100, k at level 200).
Notation "m ';;;' k" := (bind m (fun _ => k))
  (at level 100, k at level 200, right associativity).

(** ** Session and environment primitives *)

Definition tables_now : M Z :=
  fun w => (Returns (now_func (clock w)),
            {| transactions := transactions w; customers := customers w;
               gateway := gateway w; clock := S (clock w);
               guid_seed := guid_seed w; trace := trace w |}).

Definition fresh_guid : M string :=
  fun w => (Returns (make_guid (guid_seed w)),
            {| transactions := transactions w; customers := customers w;
               gateway := gateway w; clock := clock w;
               guid_seed := S (guid_seed w); trace := trace w |}).

(** Reading and assigning attributes through a reference.  A reference
    held by Python code always points to an object; here a position outside
    the table reads as the default record and is assigned nowhere, and every
    statement about a record assumes that its reference is in the table. *)
Definition load (r : nat) : M Transaction :=
  fun w => (Returns (transactions w !!! r), w).

Definition assign (r : nat) (f : Transaction -> Transaction) : M unit :=
  fun w => (Returns tt, with_transactions (alter f r (transactions w)) w).

Definition load_customer (r : nat) : M Customer :=
  fun w => (Returns (customers w !!! r), w).

Definition assign_customer (r : nat) (f : Customer -> Customer) : M unit :=
  fun w => (Returns tt, with_customers (alter f r (customers w)) w).

(** [session.add] of a newly built object appends a row; on an object that
    the session already holds it changes nothing. *)
Definition session_add_new (t : Transaction) : M unit :=
  fun w => (Returns tt, with_transactions (transactions w ++ [t]) w).

Definition session_add : M unit := ret tt.

(** [session.flush] writes the session's objects out. *)
Definition session_flush : M unit :=
  fun w => (Returns tt, with_event (EvFlush (transactions w) (customers w)) w).

(** Modelled from the spec: [BaseTableModel.get(guid, raise_error=True)],
    defined in [billy/models/base.py], which is not part of the sources at
    hand.  It fetches the record with that identifier and fails with
    [NotFound] when there is none. *)
Definition get (g : string) : M (nat * Transaction) :=
  fun w =>
    match list_find (fun t => guid t = g) (transactions w) with
    | Some rt => (Returns rt, w)
    | None => (Raises (Exception NotFound ("No such transaction " +:+ g)), w)
    end.

(** Calls into the processor, logged with their outcome. *)
Definition call_create_customer (c : Customer) : M string :=
  fun w => let '(r, g) := create_customer processor (gateway w) c in
           (r, with_gateway g (EvCreateCustomer c r) w).

Definition call_prepare_customer (c : Customer) (uri : option string) : M unit :=
  fun w => let '(r, g) := prepare_customer processor (gateway w) c uri in
           (r, with_gateway g (EvPrepareCustomer c uri r) w).

Definition call_charge (t : Transaction) : M string :=
  fun w => let '(r, g) := charge processor (gateway w) t in
           (r, with_gateway g (EvCharge t r) w).

Definition call_payout (t : Transaction) : M string :=
  fun w => let '(r, g) := payout processor (gateway w) t in
           (r, with_gateway g (EvPayout t r) w).

Definition call_refund (t : Transaction) : M string :=
  fun w => let '(r, g) := refund processor (gateway w) t in
           (r, with_gateway g (EvRefund t r) w).

(** ** [TransactionModel.create] *)

Definition create (subscription_guid : string) (transaction_type' amount scheduled_at : Z)
    (payment_uri refund_to_guid : option string) : M string :=
  if bool_decide (transaction_type' ∉ TYPE_ALL) then
    raise (Exception ValueError ("Invalid transaction_type " +:+ pretty transaction_type'))
  else
    (match refund_to_guid with
     | Some target =>
         if bool_decide (transaction_type' ≠ TYPE_REFUND) then
           raise (Exception ValueError
                    "refund_to_guid can only be set to a refund transaction")
         else if bool_decide (payment_uri ≠ None) then
           raise (Exception ValueError
                    "payment_uri cannot be set to a refund transaction")
         else
           let! refund_transaction := get target in
           if bool_decide (transaction_type refund_transaction.2 ≠ TYPE_CHARGE) then
             raise (Exception ValueError "Only charge transaction can be refunded")
           else ret tt
     | None => ret tt
     end);;;
    let! now := tables_now in
    let! g := fresh_guid in
    let transaction :=
      {| guid := "TX" +:+ g;
         subscription_guid := subscription_guid;
         transaction_type := transaction_type';
         amount := amount;
         payment_uri := payment_uri;
         status := STATUS_INIT;
         scheduled_at := scheduled_at;
         refund_to_guid := refund_to_guid;
         external_id := default_external_id;
         error_message := default_error_message;
         failure_count := default_failure_count;
         created_at := now;
         updated_at := now |} in
    session_add_new transaction;;;
    session_flush;;;
    ret (guid transaction).

(** ** [TransactionModel.update] *)

(** [repr] of a tuple of attribute names, as [format] prints
    [tuple(kwargs.keys())]: [()], [('a',)], [('a', 'b')]. *)
Definition repr_tuple (names : list string) : string :=
  match names with
  | [] => "()"
  | [a] => "('" +:+ a +:+ "',)"
  | a :: rest =>
      "('" +:+ a +:+ "'"
      +:+ foldr (fun b acc => ", '" +:+ b +:+ "'" +:+ acc) ")" rest
  end.

Definition unknown_attributes (kwargs : gmap string Z) : exn :=
  Exception TypeError
    ("Unknown attributes " +:+ repr_tuple (map_to_list kwargs).*1
     +:+ " to update").

(** [**kwargs] is a dictionary from attribute names to values. *)
Definition update (g : string) (kwargs : gmap string Z) : M unit :=
  let! transaction := get g in
  let! now := tables_now in
  assign transaction.1 (set_updated_at now);;;
  let! kwargs :=
    (match kwargs !! "status" with
     | Some status' =>
         (* status = kwargs.pop('status') *)
         if bool_decide (status' ∉ STATUS_ALL) then
           raise (Exception ValueError ("Invalid status " +:+ pretty status'))
         else
           assign transaction.1 (set_status status');;;
           ret (delete "status" kwargs)
     | None => ret kwargs
     end) in
  if bool_decide (kwargs ≠ ∅) then
    raise (unknown_attributes kwargs)
  else
    session_add;;;
    session_flush.

(** ** [TransactionModel.process_one] *)

(** The [if/elif] chain binding [method]; no branch is taken for a type
    outside the three known ones, and [method] stays unbound. *)
Definition select_method (t : Transaction) : option (Transaction -> M string) :=
  if bool_decide (transaction_type t = TYPE_CHARGE) then Some call_charge
  else if bool_decide (transaction_type t = TYPE_PAYOUT) then Some call_payout
  else if bool_decide (transaction_type t = TYPE_REFUND) then Some call_refund
  else None.

(** The body of the [try] block. *)
Definition gateway_attempt (transaction customer : nat) : M string :=
  let! c := load_customer customer in
  (match customer_external_id c with
   | None =>
       let! customer_id := call_create_customer c in
       assign_customer customer (set_customer_external_id (Some customer_id));;;
       session_add;;;
       session_flush
   | Some _ => ret tt
   end);;;
  let! c := load_customer customer in
  let! t := load transaction in
  call_prepare_customer c (payment_uri t);;;
  let! t := load transaction in
  match select_method t with
  | Some method => method t
  | None =>
      raise (Exception UnboundLocalError
               "local variable 'method' referenced before assignment")
  end.

(** The [except Exception, e] handler.  [unicode(e)] is evaluated after the
    status has been assigned and before anything else is; an error it raises
    leaves the handler, and the method, at that point. *)
Definition record_failure (transaction : nat) (maximum_retry now : Z) (e : exn) : M unit :=
  assign transaction (set_status STATUS_RETRYING);;;
  let! description := lift (unicode e) in
  assign transaction (set_error_message (Some description));;;
  assign transaction (fun t => set_failure_count (failure_count t + 1) t);;;
  let! t := load transaction in
  (if bool_decide (failure_count t > maximum_retry)%Z then
     assign transaction (set_status STATUS_FAILED)
   else ret tt);;;
  assign transaction (set_updated_at now);;;
  session_add;;;
  session_flush.

(** The statements after the [try] block. *)
Definition record_success (transaction : nat) (transaction_id : string) : M unit :=
  assign transaction (set_external_id (Some transaction_id));;;
  assign transaction (set_status STATUS_DONE);;;
  let! now := tables_now in
  assign transaction (set_updated_at now);;;
  session_add;;;
  session_flush.

Definition process_one (transaction : nat) (maximum_retry : Z) : M unit :=
  let! t := load transaction in
  if bool_decide (status t = STATUS_DONE) then
    raise (Exception ValueError
             ("Cannot process a finished transaction " +:+ guid t))
  else
    let! now := tables_now in
    let customer := customer_of (subscription_guid t) in
    try_except (gateway_attempt transaction customer)
      (fun e =>
         match e with
         | SystemExit | KeyboardInterrupt => raise e
         | Exception _ _ => record_failure transaction maximum_retry now e
         end)
      (fun transaction_id => record_success transaction transaction_id).

(** ** [TransactionModel.process_transactions] *)

(** The two filters of the query. *)
Definition selected (guids : option (list string)) (t : Transaction) : bool :=
  bool_decide (status t ∈ [STATUS_INIT; STATUS_RETRYING])
  && match guids with
     | Some gs => bool_decide (guid t ∈ gs)
     | None => true
     end.

(** The references of the rows that pass a filter, from position [r] on. *)
Fixpoint query_from (keep : Transaction -> bool) (r : nat) (rows : list Transaction) : list nat :=
  match rows with
  | [] => []
  | t :: rows' =>
      if keep t then r :: query_from keep (S r) rows'
      else query_from keep (S r) rows'
  end.

(** The query of [process_transactions]: the rows that pass the two
    filters, in the order of the database's scan, since the query has no
    [order_by]. *)
Definition query (guids : option (list string)) : M (list nat) :=
  fun w =>
    (Returns (scan (scan_position w guids)
                (query_from (selected guids) 0 (transactions w))), w).

(** The [for] loop over the query result. *)
Fixpoint process_each (rows : list nat) (maximum_retry : Z)
    (processed_transaction_guids : list string) : M (list string) :=
  match rows with
  | [] => ret processed_transaction_guids
  | transaction :: rows' =>
      process_one transaction maximum_retry;;;
      let! t := load transaction in
      process_each rows' maximum_retry (processed_transaction_guids ++ [guid t])
  end.

Definition process_transactions (guids : option (list string)) (maximum_retry : Z)
    : M (list string) :=
  let! rows := query guids in
  process_each rows maximum_retry [].

End Model.

Arguments World G : clear implicits.
Arguments M G : clear implicits.

(** ** Test doubles and the scenarios of the specification *)

Module Scenario.

(** A gateway that declines every money movement. *)
Definition declining : Processor unit := {|
  create_customer := fun g _ => (Returns "CU1", g);
  prepare_customer := fun g _ _ => (Returns tt, g);
  charge := fun g _ => (Raises (Exception (OtherError "Declined") "card declined"), g);
  payout := fun g _ => (Raises (Exception (OtherError "Declined") "payout declined"), g);
  refund := fun g _ => (Raises (Exception (OtherError "Declined") "refund declined"), g);
|}.

(** A gateway that accepts everything. *)
Definition accepting : Processor unit := {|
  create_customer := fun g _ => (Returns "CU1", g);
  prepare_customer := fun g _ _ => (Returns tt, g);
  charge := fun g _ => (Returns "CH1", g);
  payout := fun g _ => (Returns "PO1", g);
  refund := fun g _ => (Returns "RF1", g);
|}.

(** The decimal digit of a small number, as a string. *)
Definition digit (n : nat) : string :=
  String (Ascii.ascii_of_nat (48 + n)) EmptyString.

(** A gateway whose n-th money movement fails when [n] is listed in its
    state, which counts the movements made so far. *)
Definition flaky (failing : list nat) : Processor nat :=
  let move := fun (g : nat) (_ : Transaction) =>
    if bool_decide (g ∈ failing)
    then (Raises (Exception (OtherError "Timeout") "gateway timeout"), S g)
    else (Returns (String.append "GW" (digit g)), S g) in
  {| create_customer := fun g _ => (Returns "CU1", g);
     prepare_customer := fun g _ _ => (Returns tt, g);
     charge := move; payout := move; refund := move |}.

(** The two bytes of an e with an acute accent in UTF-8. *)
Definition e_acute : string :=
  String (Ascii.ascii_of_nat 195) (String (Ascii.ascii_of_nat 169) EmptyString).

(** A gateway that declines every money movement with a byte-string message
    outside ASCII. *)
Definition garbling : Processor unit := {|
  create_customer := fun g _ => (Returns "CU1", g);
  prepare_customer := fun g _ _ => (Returns tt, g);
  charge := fun g _ =>
    (Raises (Exception (OtherError "Declined") (Bytes ("caf" +:+ e_acute))), g);
  payout := fun g _ =>
    (Raises (Exception (OtherError "Declined") (Bytes ("caf" +:+ e_acute))), g);
  refund := fun g _ =>
    (Raises (Exception (OtherError "Declined") (Bytes ("caf" +:+ e_acute))), g);
|}.

(** A gateway interrupted by the operator during a charge. *)
Definition interrupted : Processor unit := {|
  create_customer := fun g _ => (Returns "CU1", g);
  prepare_customer := fun g _ _ => (Returns tt, g);
  charge := fun g _ => (Raises KeyboardInterrupt, g);
  payout := fun g _ => (Raises KeyboardInterrupt, g);
  refund := fun g _ => (Raises KeyboardInterrupt, g);
|}.

Definition clock_reading (n : nat) : Z := 1000 + Z.of_nat n.
Definition guid_of_seed (n : nat) : string := digit n.
Definition sole_customer (_ : string) : nat := 0%nat.

Definition alice : Customer :=
  {| customer_guid := "CUalice"; customer_external_id := None |}.

(** A database that scans the rows in the order of their insertion, and one
    that scans them backwards. *)
Definition insertion_order {G} (_ : World G) (_ : option (list string)) (r : nat) : nat :=
  r.

Definition latest_first {G} (w : World G) (_ : option (list string)) (r : nat) : nat :=
  length (transactions w) - r.

Definition start {G} (g : G) : World G :=
  {| transactions := []; customers := [alice]; gateway := g;
     clock := 0; guid_seed := 0; trace := [] |}.

(** A record as [create] leaves it. *)
Definition fresh (g : string) (ty : Z) (uri : option string) (at_ : Z) : Transaction :=
  {| guid := g; subscription_guid := "SU1"; transaction_type := ty;
     amount := 1000; payment_uri := uri; status := STATUS_INIT;
     scheduled_at := 0; refund_to_guid := None; external_id := None;
     error_message := None; failure_count := 0; created_at := at_;
     updated_at := at_ |}.

Definition pending_charge : Transaction :=
  fresh "TX0" TYPE_CHARGE (Some "/cards/1") 1000.

Definition finished_charge : Transaction :=
  set_status STATUS_DONE (set_external_id (Some "CH1") pending_charge).

(** A session holding the given rows. *)
Definition holding {G} (rows : list Transaction) (g : G) : World G :=
  {| transactions := rows; customers := [alice]; gateway := g;
     clock := 1; guid_seed := 1; trace := [] |}.

Definition process_declined :=
  process_one declining clock_reading sole_customer 0 2.
Definition process_accepted :=
  process_one accepting clock_reading sole_customer 0 2.

(** Three pending charges stored in an order that follows neither their
    creation times nor their guids. *)
Definition shuffled : list Transaction :=
  [fresh "TXb" TYPE_CHARGE (Some "/cards/1") 1002;
   fresh "TXa" TYPE_CHARGE (Some "/cards/1") 1003;
   fresh "TXc" TYPE_CHARGE (Some "/cards/1") 1001].

End Scenario.

(** ** Descriptions of the records and events an attempt leaves *)

(** The record the [except Exception, e] handler leaves behind when it runs
    to its end, [description] being what [unicode(e)] returned. *)
Definition failed (maximum_retry now : Z) (description : string) (t : Transaction)
    : Transaction :=
  {| guid := guid t; subscription_guid := subscription_guid t;
     transaction_type := transaction_type t; amount := amount t;
     payment_uri := payment_uri t;
     status := if bool_decide (failure_count t + 1 > maximum_retry)%Z
               then STATUS_FAILED else STATUS_RETRYING;
     scheduled_at := scheduled_at t; refund_to_guid := refund_to_guid t;
     external_id := external_id t; error_message := Some description;
     failure_count := failure_count t + 1; created_at := created_at t;
     updated_at := now |}.

(** The record the handler leaves behind when [unicode(e)] raises: the
    status has been assigned, nothing else. *)
Definition marked (t : Transaction) : Transaction :=
  {| guid := guid t; subscription_guid := subscription_guid t;
     transaction_type := transaction_type t; amount := amount t;
     payment_uri := payment_uri t; status := STATUS_RETRYING;
     scheduled_at := scheduled_at t; refund_to_guid := refund_to_guid t;
     external_id := external_id t; error_message := error_message t;
     failure_count := failure_count t; created_at := created_at t;
     updated_at := updated_at t |}.

(** A byte string within ASCII. *)
Definition ascii_only (s : string) : Prop :=
  Forall (fun c => (Ascii.N_of_ascii c < 128)%N) (String.list_ascii_of_string s).

(** What [unicode] is expected to return for a message: the text of a
    unicode object, and the same characters for a byte string within
    ASCII. *)
Definition rendered (msg : message) (description : string) : Prop :=
  match msg with
  | Text s => description = s
  | Bytes s => description = s /\ ascii_only s
  end.

(** An exception with a message [unicode] renders. *)
Definition legible (e : exn) : Prop := exists s, unicode e = Returns s.

(** The record the statements after the [try] block leave behind. *)
Definition succeeded (transaction_id : string) (now : Z) (t : Transaction) : Transaction :=
  {| guid := guid t; subscription_guid := subscription_guid t;
     transaction_type := transaction_type t; amount := amount t;
     payment_uri := payment_uri t; status := STATUS_DONE;
     scheduled_at := scheduled_at t; refund_to_guid := refund_to_guid t;
     external_id := Some transaction_id; error_message := error_message t;
     failure_count := failure_count t; created_at := created_at t;
     updated_at := now |}.

(** The events appended to the trace between two worlds. *)
Definition new_events {G} (w w' : World G) : list Event :=
  drop (length (trace w)) (trace w').

(** The money movement a transaction of a known type gives rise to. *)
Definition movement (t : Transaction) (r : Outcome string) : option Event :=
  if bool_decide (transaction_type t = TYPE_CHARGE) then Some (EvCharge t r)
  else if bool_decide (transaction_type t = TYPE_PAYOUT) then Some (EvPayout t r)
  else if bool_decide (transaction_type t = TYPE_REFUND) then Some (EvRefund t r)
  else None.


(** ** Descriptions of what [create] and [update] accept and leave *)

(** The record [create] builds from its arguments. *)
Definition created {G} (now_func : nat -> Z) (make_guid : nat -> string)
    (subscription : string) (ty amount scheduled_at : Z)
    (uri target : option string) (w : World G) : Transaction :=
  {| guid := "TX" +:+ make_guid (guid_seed w);
     subscription_guid := subscription; transaction_type := ty;
     amount := amount; payment_uri := uri; status := STATUS_INIT;
     scheduled_at := scheduled_at; refund_to_guid := target;
     external_id := None; error_message := None; failure_count := 0;
     created_at := now_func (clock w); updated_at := now_func (clock w) |}.

(** The arguments [create] accepts. *)
Definition acceptable (ty : Z) (uri target : option string)
    (rows : list Transaction) : Prop :=
  ty ∈ TYPE_ALL
  /\ match target with
     | None => True
     | Some g =>
         ty = TYPE_REFUND /\ uri = None
         /\ exists i rt, list_find (fun t => guid t = g) rows = Some (i, rt)
                         /\ transaction_type rt = TYPE_CHARGE
     end.

(** The record a successful [update] leaves behind. *)
Definition updated (now : Z) (status' : option Z) (t : Transaction) : Transaction :=
  match status' with
  | Some s => set_status s (set_updated_at now t)
  | None => set_updated_at now t
  end.

(** The keyword arguments [update] accepts. *)
Definition recognized (kwargs : gmap string Z) : Prop :=
  (forall s, kwargs !! "status" = Some s -> s ∈ STATUS_ALL)
  /\ (forall k, k <> "status" -> kwargs !! k = None).

(** ** Descriptions used for the batch *)

(** One attempt on a record: it succeeded, or it failed and was absorbed. *)
Definition attempted (maximum_retry : Z) (t t' : Transaction) : Prop :=
  (exists id now, t' = succeeded id now t)
  \/ (exists description now, t' = failed maximum_retry now description t).

(** The position an arrangement of rows gives to each of them. *)
Fixpoint place (arrangement : list nat) (r : nat) : nat :=
  match arrangement with
  | [] => 0
  | x :: rest => if decide (x = r) then 0 else S (place rest r)
  end.

(** A processor none of whose operations raises a termination signal. *)
Definition never_fatal {G} (p : Processor G) : Prop :=
  (forall g c e, (create_customer p g c).1 = Raises e -> fatal e = false)
  /\ (forall g c u e, (prepare_customer p g c u).1 = Raises e -> fatal e = false)
  /\ (forall g t e, (charge p g t).1 = Raises e -> fatal e = false)
  /\ (forall g t e, (payout p g t).1 = Raises e -> fatal e = false)
  /\ (forall g t e, (refund p g t).1 = Raises e -> fatal e = false).

(** A processor all of whose failures carry a message [unicode] renders. *)
Definition legible_failures {G} (p : Processor G) : Prop :=
  (forall g c e, (create_customer p g c).1 = Raises e -> legible e)
  /\ (forall g c u e, (prepare_customer p g c u).1 = Raises e -> legible e)
  /\ (forall g t e, (charge p g t).1 = Raises e -> legible e)
  /\ (forall g t e, (payout p g t).1 = Raises e -> legible e)
  /\ (forall g t e, (refund p g t).1 = Raises e -> legible e).

(** ** Histories of calls *)

(** The calls a client makes on the model.  A transaction object handed to
    [process_one] has been fetched from the session by its guid. *)
Inductive Call :=
  | CallCreate (subscription : string) (ty amount scheduled_at : Z)
      (uri target : option string)
  | CallUpdate (g : string) (kwargs : gmap string Z)
  | CallProcessOne (g : string) (maximum_retry : Z)
  | CallProcessTransactions (guids : option (list string)) (maximum_retry : Z).

Section History.

Context {G : Type}.
Variable processor : Processor G.
Variable now_func : nat -> Z.
Variable make_guid : nat -> string.
Variable customer_of : string -> nat.
Variable scan_position : World G -> option (list string) -> nat -> nat.

Definition perform (c : Call) : M G unit :=
  match c with
  | CallCreate subscription ty amount scheduled_at uri target =>
      bind (create now_func make_guid subscription ty amount scheduled_at uri target)
        (fun _ => ret tt)
  | CallUpdate g kwargs => update now_func g kwargs
  | CallProcessOne g maximum_retry =>
      bind (get g)
        (fun transaction =>
           process_one processor now_func customer_of transaction.1 maximum_retry)
  | CallProcessTransactions guids maximum_retry =>
      bind (process_transactions processor now_func customer_of scan_position
              guids maximum_retry)
        (fun _ => ret tt)
  end.

(** The session after a history; an exception ends a call, not the history. *)
Fixpoint run (calls : list Call) (w : World G) : World G :=
  match calls with
  | [] => w
  | c :: calls' => run calls' (perform c w).2
  end.

End History.

(** What may become of a record once it is stored. *)
Definition evolved (t t' : Transaction) : Prop :=
  guid t' = guid t
  /\ transaction_type t' = transaction_type t
  /\ payment_uri t' = payment_uri t
  /\ refund_to_guid t' = refund_to_guid t
  /\ ((error_message t' = error_message t /\ failure_count t' = failure_count t)
      \/ (is_Some (error_message t') /\ (failure_count t < failure_count t')%Z)).

(** The refund rule of the specification, for a record [t] of the table. *)
Definition refund_rule (rows : list Transaction) (t : Transaction) : Prop :=
  (transaction_type t <> TYPE_REFUND -> refund_to_guid t = None)
  /\ (transaction_type t = TYPE_REFUND ->
      payment_uri t = None
      /\ exists g i rt,
           refund_to_guid t = Some g
           /\ list_find (fun x => guid x = g) rows = Some (i, rt)
           /\ transaction_type rt = TYPE_CHARGE).

(** The refund rule [create] enforces: it binds the records that carry a
    refund target. *)
Definition refund_target_rule (rows : list Transaction) (t : Transaction) : Prop :=
  (transaction_type t <> TYPE_REFUND -> refund_to_guid t = None)
  /\ (forall g, refund_to_guid t = Some g ->
      transaction_type t = TYPE_REFUND
      /\ payment_uri t = None
      /\ exists i rt,
           list_find (fun x => guid x = g) rows = Some (i, rt)
           /\ transaction_type rt = TYPE_CHARGE).

(** The error-message rule of the specification. *)
Definition message_rule (t : Transaction) : Prop :=
  is_Some (error_message t) ->
  status t = STATUS_RETRYING \/ status t = STATUS_FAILED.

(** What the code maintains: a message is there exactly from the first
    absorbed failure on. *)
Definition message_tracks_failures (t : Transaction) : Prop :=
  (0 <= failure_count t)%Z
  /\ (is_Some (error_message t) <-> (0 < failure_count t)%Z).

(** ** Descriptions used for further properties *)

(** What no method ever changes in a stored record, and the one counter that
    only grows. *)
Definition kept (t t' : Transaction) : Prop :=
  guid t' = guid t
  /\ subscription_guid t' = subscription_guid t
  /\ transaction_type t' = transaction_type t
  /\ amount t' = amount t
  /\ payment_uri t' = payment_uri t
  /\ scheduled_at t' = scheduled_at t
  /\ refund_to_guid t' = refund_to_guid t
  /\ created_at t' = created_at t
  /\ (failure_count t <= failure_count t')%Z.

(** The two enumerations. *)
Definition enumerated (t : Transaction) : Prop :=
  status t ∈ STATUS_ALL /\ transaction_type t ∈ TYPE_ALL.

(** A call to [create_customer] is in order when the customer passed to it
    has no external id yet. *)
Definition guarded (ev : Event) : Prop :=
  match ev with
  | EvCreateCustomer c _ => customer_external_id c = None
  | _ => True
  end.

(** What may become of a customer object: nothing, or it gains the external
    id it lacked. *)
Definition registered (c c' : Customer) : Prop :=
  c' = c
  \/ (customer_external_id c = None
      /\ exists id, c' = set_customer_external_id (Some id) c).

(** The part of the world the customers and the gateway log live in. *)
Definition settled {G} (w w' : World G) : Prop :=
  Forall2 registered (customers w) (customers w')
  /\ exists evs, trace w' = trace w ++ evs /\ Forall guarded evs.

(** A processor all of whose money movements fail with an [Exception]. *)
Definition declines {G} (p : Processor G) : Prop :=
  forall g t,
    (exists cls msg, (charge p g t).1 = Raises (Exception cls msg))
    /\ (exists cls msg, (payout p g t).1 = Raises (Exception cls msg))
    /\ (exists cls msg, (refund p g t).1 = Raises (Exception cls msg)).

(** An attempt that failed and was absorbed. *)
Definition declined (maximum_retry : Z) (t t' : Transaction) : Prop :=
  exists description now, t' = failed maximum_retry now description t.

(** The three money movements. *)
Definition is_movement (ev : Event) : bool :=
  match ev with
  | EvCharge _ _ | EvPayout _ _ | EvRefund _ _ => true
  | _ => false
  end.

(** ** The listing queries *)

(** [order_by(created_at.desc())].  Among rows created at the same time the
    database is free to pick the order; the model takes the one of a merge
    sort, and the statements proved about the listings hold for any. *)
Definition newest_first (t1 t2 : Transaction) : Prop :=
  (created_at t2 <= created_at t1)%Z.

#[global] Instance newest_first_dec : RelDecision newest_first.
Proof. intros t1 t2. unfold newest_first. apply _. Defined.

Definition order_by_created_at_desc (rows : list Transaction) : list Transaction :=
  merge_sort newest_first rows.

(** Modelled from the spec: [decorate_offset_limit], defined in
    [billy/models/base.py], which is not part of the sources at hand.  It
    applies the offset and the limit to the query when they are given. *)
Definition offset_limit (offset limit : option nat) (rows : list Transaction)
    : list Transaction :=
  let rows := match offset with Some n => drop n rows | None => rows end in
  match limit with Some n => take n rows | None => rows end.

Section Listing.

Context {G : Type}.

(** [tables.Subscription] and [tables.Plan], which this module only reads:
    the [plan_guid] of the subscription with a given guid and the
    [company_guid] of the plan with a given guid, when there is such a row.
    Both guids are primary keys, so a join on them matches at most one row. *)
Variable plan_guid_of : string -> option string.
Variable company_guid_of : string -> option string.

Definition get_last_transaction : M G (option Transaction) :=
  fun w => (Returns (head (order_by_created_at_desc (transactions w))), w).

(** The two joins and the filter of [list_by_company_guid]. *)
Definition company_of (t : Transaction) : option string :=
  match plan_guid_of (subscription_guid t) with
  | Some plan => company_guid_of plan
  | None => None
  end.

Definition list_by_company_guid (company_guid : string)
    (offset limit : option nat) : M G (list Transaction) :=
  fun w =>
    (Returns
       (offset_limit offset limit
          (order_by_created_at_desc
             (filter (fun t => company_of t = Some company_guid) (transactions w)))),
     w).

Definition list_by_subscription_guid (subscription_guid' : string)
    (offset limit : option nat) : M G (list Transaction) :=
  fun w =>
    (Returns
       (offset_limit offset limit
          (order_by_created_at_desc
             (filter (fun t => subscription_guid t = subscription_guid')
                (transactions w)))),
     w).

End Listing.

(** * Properties *)

(** ** One processing attempt *)

Lemma alter_as_insert {A} (f : A -> A) (l : list A) (i : nat) (x : A) :
  l !! i = Some x -> alter f i l = <[i := f x]> l.
Proof.
  revert i. induction l as [|y l IH]; intros [|i] H; simplify_eq/=; try done.
  f_equal. by apply IH.
Qed.

Lemma first_undecodable_None (s : string) (n : nat) :
  first_undecodable s n = None <-> ascii_only s.
Proof.
  unfold ascii_only. revert n. induction s as [|c s IH]; intros n; simpl.
  - split; [constructor|done].
  - rewrite Forall_cons. unfold is_ascii_byte.
    destruct (N.ltb_spec (Ascii.N_of_ascii c) 128) as [Hc|Hc].
    + rewrite IH. tauto.
    + split; [done|]. intros [? _]. lia.
Qed.

(** What [unicode] returns and what it raises. *)
Lemma unicode_rendered (cls : exc_class) (msg : message) (description : string) :
  unicode (Exception cls msg) = Returns description <-> rendered msg description.
Proof.
  destruct msg as [s|s]; simpl.
  - split; [by intros [= ->]|by intros ->].
  - unfold decode_ascii.
    destruct (first_undecodable s 0) as [[n c]|] eqn:Hs.
    + split; [done|]. intros [_ Ha]. apply (first_undecodable_None s 0) in Ha.
      by rewrite Ha in Hs.
    + split; [intros [= <-]|by intros [-> _]].
      split; [done|]. by apply (first_undecodable_None s 0).
Qed.

Lemma unicode_raises (e e' : exn) :
  unicode e = Raises e' ->
  fatal e = false /\ fatal e' = false /\ ~ InvalidArgument e'
  /\ exists cls s msg,
       e = Exception cls (Bytes s) /\ ~ ascii_only s
       /\ e' = Exception UnicodeDecodeError msg.
Proof.
  destruct e as [| |cls [s|s]]; simpl; try done.
  unfold decode_ascii.
  destruct (first_undecodable s 0) as [[n c]|] eqn:Hs; [|done].
  intros [= <-]. split; [done|]. split; [done|]. split; [by intros ?|].
  eexists _, _, _. split; [done|]. split; [|done].
  intros Ha. apply (first_undecodable_None s 0) in Ha. by rewrite Ha in Hs.
Qed.

Section ProcessOne.
Context {G : Type}.
Variable processor : Processor G.
Variable now_func : nat -> Z.
Variable customer_of : string -> nat.

Lemma record_failure_Some (r : nat) (m now : Z) (e : exn) (w : World G)
    (t : Transaction) (description : string) :
  transactions w !! r = Some t ->
  unicode e = Returns description ->
  record_failure r m now e w
  = (Returns tt,
     let rows := <[r := failed m now description t]> (transactions w) in
     with_event (EvFlush rows (customers w)) (with_transactions rows w)).
Proof.
  intros H Hu.
  assert (Hlt : r < length (transactions w)) by by eapply lookup_lt_Some.
  unfold record_failure, bind, assign, load, session_add, session_flush, ret, lift;
    simpl.
  rewrite Hu.
  rewrite !list_alter_alter_eq.
  rewrite list_lookup_total_alter_eq by done.
  rewrite (list_lookup_total_correct _ _ _ H); simpl.
  case_bool_decide; unfold with_event, with_transactions; simpl;
    rewrite ?list_alter_alter_eq, (alter_as_insert _ _ _ _ H);
    unfold failed; simpl.
  - by rewrite bool_decide_true by done.
  - by rewrite bool_decide_false by done.
Qed.

Lemma record_failure_undecodable (r : nat) (m now : Z) (e e' : exn) (w : World G)
    (t : Transaction) :
  transactions w !! r = Some t ->
  unicode e = Raises e' ->
  record_failure r m now e w
  = (Raises e', with_transactions (<[r := marked t]> (transactions w)) w).
Proof.
  intros H Hu.
  unfold record_failure, bind, assign, lift; simpl.
  by rewrite Hu, (alter_as_insert _ _ _ _ H).
Qed.

Lemma record_success_Some (r : nat) (id : string) (w : World G) (t : Transaction) :
  transactions w !! r = Some t ->
  record_success now_func r id w
  = (Returns tt,
     let rows := <[r := succeeded id (now_func (clock w)) t]> (transactions w) in
     with_event (EvFlush rows (customers w))
       (with_transactions rows (tables_now now_func w).2)).
Proof.
  intros H.
  unfold record_success, bind, assign, load, session_add, session_flush, ret,
    tables_now, with_event, with_transactions; simpl.
  by rewrite !list_alter_alter_eq, (alter_as_insert _ _ _ _ H).
Qed.


Lemma process_one_not_done (r : nat) (m : Z) (w : World G) (t : Transaction) :
  transactions w !! r = Some t -> status t <> STATUS_DONE ->
  process_one processor now_func customer_of r m w =
    match gateway_attempt processor r (customer_of (subscription_guid t))
            (tables_now now_func w).2 with
    | (Returns id, w1) => record_success now_func r id w1
    | (Raises e, w1) =>
        if fatal e then (Raises e, w1)
        else record_failure r m (now_func (clock w)) e w1
    end.
Proof.
  intros H Hs. unfold process_one, bind, load.
  rewrite (list_lookup_total_correct _ _ _ H).
  rewrite bool_decide_false by done. simpl. unfold try_except.
  destruct (gateway_attempt _ _ _ _) as [[id|[]] w1]; done.
Qed.

Lemma process_one_done (r : nat) (m : Z) (w : World G) (t : Transaction) :
  transactions w !! r = Some t -> status t = STATUS_DONE ->
  process_one processor now_func customer_of r m w =
    (Raises (Exception ValueError
               ("Cannot process a finished transaction " +:+ guid t)), w).
Proof.
  intros H Hs. unfold process_one, bind, load.
  rewrite (list_lookup_total_correct _ _ _ H).
  by rewrite bool_decide_true by done.
Qed.

Lemma gateway_attempt_frame (tx c : nat) (w : World G) :
  let w1 := (gateway_attempt processor tx c w).2 in
  transactions w1 = transactions w /\ clock w1 = clock w
  /\ guid_seed w1 = guid_seed w
  /\ length (customers w1) = length (customers w)
  /\ exists evs, trace w1 = trace w ++ evs.
Proof.
  unfold gateway_attempt, bind, load_customer, load, assign_customer,
    session_add, session_flush, ret, raise, select_method,
    call_create_customer, call_prepare_customer, call_charge, call_payout,
    call_refund.
  simpl.
  repeat (case_match; simplify_eq/=);
    rewrite ?length_alter, <- ?(assoc_L (++)); eauto 10.
Qed.

Lemma gateway_attempt_returns (tx c : nat) (w w1 : World G)
    (t : Transaction) (cu : Customer) (id : string) :
  transactions w !! tx = Some t -> customers w !! c = Some cu ->
  gateway_attempt processor tx c w = (Returns id, w1) ->
  exists mv, movement t (Returns id) = Some mv
  /\ match customer_external_id cu with
     | None => exists cid,
         let cu' := set_customer_external_id (Some cid) cu in
         customers w1 = <[c := cu']> (customers w)
         /\ trace w1 = trace w ++
              [EvCreateCustomer cu (Returns cid);
               EvFlush (transactions w) (customers w1);
               EvPrepareCustomer cu' (payment_uri t) (Returns tt); mv]
     | Some _ =>
         customers w1 = customers w
         /\ trace w1 = trace w ++
              [EvPrepareCustomer cu (payment_uri t) (Returns tt); mv]
     end.
Proof.
  intros Ht Hc.
  assert (Hlt : c < length (customers w)) by by eapply lookup_lt_Some.
  unfold gateway_attempt, bind, load_customer, load, assign_customer,
    session_add, session_flush, ret, raise, select_method, movement,
    call_create_customer, call_prepare_customer, call_charge, call_payout,
    call_refund.
  simpl.
  rewrite (list_lookup_total_correct _ _ _ Hc).
  destruct (customer_external_id cu) as [x|] eqn:Hx; simpl.
  - rewrite !(list_lookup_total_correct _ _ _ Hc), !(list_lookup_total_correct _ _ _ Ht).
    intros Hrun.
    repeat (case_match; simplify_eq/=);
      repeat match goal with u : unit |- _ => destruct u end;
      rewrite ?(list_lookup_total_correct _ _ _ Ht) in *; simplify_eq;
      try congruence;
      eexists; (split; [done|]); split; try done; by rewrite <- (assoc_L (++)).
  - destruct (create_customer _ _ _) as [[cid|e] g1] eqn:Hcc; simpl; [|done].
    rewrite !list_lookup_total_alter_eq by done.
    rewrite !(list_lookup_total_correct _ _ _ Hc), !(list_lookup_total_correct _ _ _ Ht).
    rewrite (alter_as_insert _ _ _ _ Hc).
    intros Hrun.
    repeat (case_match; simplify_eq/=);
      repeat match goal with u : unit |- _ => destruct u end;
      rewrite ?(list_lookup_total_correct _ _ _ Ht) in *; simplify_eq;
      try congruence;
      eexists; (split; [done|]); eexists; split; try done;
      by rewrite <- !(assoc_L (++)).
Qed.

(** The four ways an attempt on an unfinished transaction ends. *)
Lemma process_one_absorbed (r : nat) (m : Z) (w w1 : World G)
    (t : Transaction) (e : exn) (description : string) :
  transactions w !! r = Some t -> status t <> STATUS_DONE ->
  gateway_attempt processor r (customer_of (subscription_guid t))
    (tables_now now_func w).2 = (Raises e, w1) ->
  fatal e = false ->
  unicode e = Returns description ->
  process_one processor now_func customer_of r m w
  = (Returns tt,
     let rows := <[r := failed m (now_func (clock w)) description t]> (transactions w) in
     with_event (EvFlush rows (customers w1)) (with_transactions rows w1)).
Proof.
  intros Ht Hs Hrun He Hu.
  pose proof (gateway_attempt_frame r (customer_of (subscription_guid t))
                (tables_now now_func w).2) as (Htx & _).
  rewrite Hrun in Htx; simpl in Htx.
  rewrite (process_one_not_done _ _ _ _ Ht Hs), Hrun, He.
  rewrite (record_failure_Some _ _ _ _ _ t description) by (by rewrite ?Htx).
  simpl. by rewrite Htx.
Qed.

Lemma process_one_garbled (r : nat) (m : Z) (w w1 : World G)
    (t : Transaction) (e e' : exn) :
  transactions w !! r = Some t -> status t <> STATUS_DONE ->
  gateway_attempt processor r (customer_of (subscription_guid t))
    (tables_now now_func w).2 = (Raises e, w1) ->
  unicode e = Raises e' ->
  process_one processor now_func customer_of r m w
  = (Raises e', with_transactions (<[r := marked t]> (transactions w)) w1).
Proof.
  intros Ht Hs Hrun Hu.
  pose proof (gateway_attempt_frame r (customer_of (subscription_guid t))
                (tables_now now_func w).2) as (Htx & _).
  rewrite Hrun in Htx; simpl in Htx.
  destruct (unicode_raises _ _ Hu) as (He & _).
  rewrite (process_one_not_done _ _ _ _ Ht Hs), Hrun, He.
  rewrite (record_failure_undecodable _ _ _ _ e' _ t) by (by rewrite ?Htx).
  by rewrite Htx.
Qed.

Lemma process_one_reraised (r : nat) (m : Z) (w w1 : World G)
    (t : Transaction) (e : exn) :
  transactions w !! r = Some t -> status t <> STATUS_DONE ->
  gateway_attempt processor r (customer_of (subscription_guid t))
    (tables_now now_func w).2 = (Raises e, w1) ->
  fatal e = true ->
  process_one processor now_func customer_of r m w = (Raises e, w1)
  /\ transactions w1 = transactions w.
Proof.
  intros Ht Hs Hrun He.
  pose proof (gateway_attempt_frame r (customer_of (subscription_guid t))
                (tables_now now_func w).2) as (Htx & _).
  rewrite Hrun in Htx; simpl in Htx.
  by rewrite (process_one_not_done _ _ _ _ Ht Hs), Hrun, He.
Qed.

Lemma process_one_completed (r : nat) (m : Z) (w w1 : World G)
    (t : Transaction) (id : string) :
  transactions w !! r = Some t -> status t <> STATUS_DONE ->
  gateway_attempt processor r (customer_of (subscription_guid t))
    (tables_now now_func w).2 = (Returns id, w1) ->
  process_one processor now_func customer_of r m w
  = (Returns tt,
     let rows := <[r := succeeded id (now_func (S (clock w))) t]> (transactions w) in
     with_event (EvFlush rows (customers w1))
       (with_transactions rows (tables_now now_func w1).2)).
Proof.
  intros Ht Hs Hrun.
  pose proof (gateway_attempt_frame r (customer_of (subscription_guid t))
                (tables_now now_func w).2) as (Htx & Hck & _).
  rewrite Hrun in Htx, Hck; simpl in Htx, Hck.
  rewrite (process_one_not_done _ _ _ _ Ht Hs), Hrun.
  rewrite (record_success_Some _ _ _ t) by by rewrite Htx.
  simpl. by rewrite Htx, Hck.
Qed.

(** X20: on an unfinished transaction, a gateway attempt that fails with an
    exception whose message [unicode] renders (a unicode object, or a byte
    string within ASCII) raises [failure_count] by one; the status becomes
    [STATUS_RETRYING] while the new count is at most [maximum_retry] and
    [STATUS_FAILED] once it exceeds it.  With [maximum_retry = N] the status
    is still retrying at count [N] and failed at count [N + 1]. *)
Theorem process_one_retry_escalation (r : nat) (maximum_retry : Z)
    (w : World G) (t : Transaction) (cls : exc_class) (msg : message)
    (description : string) :
  transactions w !! r = Some t ->
  status t <> STATUS_DONE ->
  (gateway_attempt processor r (customer_of (subscription_guid t))
     (tables_now now_func w).2).1 = Raises (Exception cls msg) ->
  rendered msg description ->
  exists t',
    transactions (process_one processor now_func customer_of r maximum_retry w).2 !! r
      = Some t'
    /\ failure_count t' = (failure_count t + 1)%Z
    /\ ((failure_count t' <= maximum_retry)%Z -> status t' = STATUS_RETRYING)
    /\ ((failure_count t' > maximum_retry)%Z -> status t' = STATUS_FAILED)
    /\ (failure_count t' = maximum_retry -> status t' = STATUS_RETRYING)
    /\ (failure_count t' = (maximum_retry + 1)%Z -> status t' = STATUS_FAILED).
Proof.
  intros Ht Hs Hrun Hu%(unicode_rendered cls).
  destruct (gateway_attempt _ _ _ _) as [o w1] eqn:Hga; simpl in Hrun; subst o.
  rewrite (process_one_absorbed _ maximum_retry _ _ _ _ _ Ht Hs Hga eq_refl Hu); simpl.
  exists (failed maximum_retry (now_func (clock w)) description t).
  split; [apply list_lookup_insert_eq; by eapply lookup_lt_Some|].
  unfold failed; simpl. split; [done|].
  case_bool_decide; repeat split; intros; try done; lia.
Qed.



(** X21: a gateway failure that is not a termination signal and whose
    message [unicode] renders is absorbed: [process_one] returns normally,
    the record carries that message, a failure count raised by one, the
    status retrying or failed and the time read at the start of the call,
    and the method ends with a flush of that state.  A termination signal is
    raised again and no transaction record is touched. *)
Theorem process_one_absorbs_failure (r : nat) (maximum_retry : Z)
    (w : World G) (t : Transaction) (e : exn) :
  transactions w !! r = Some t ->
  status t <> STATUS_DONE ->
  (gateway_attempt processor r (customer_of (subscription_guid t))
     (tables_now now_func w).2).1 = Raises e ->
  let res := process_one processor now_func customer_of r maximum_retry w in
  match e with
  | SystemExit | KeyboardInterrupt =>
      res.1 = Raises e /\ transactions res.2 = transactions w
  | Exception cls msg =>
      forall description, rendered msg description ->
        res.1 = Returns tt
        /\ (exists t',
              transactions res.2 !! r = Some t'
              /\ error_message t' = Some description
              /\ failure_count t' = (failure_count t + 1)%Z
              /\ (status t' = STATUS_RETRYING \/ status t' = STATUS_FAILED)
              /\ updated_at t' = now_func (clock w))
        /\ last (trace res.2) = Some (EvFlush (transactions res.2) (customers res.2))
  end.
Proof.
  intros Ht Hs Hrun res.
  destruct (gateway_attempt _ _ _ _) as [o w1] eqn:Hga; simpl in Hrun; subst o.
  assert (Hfatal : fatal e = true ->
            res.1 = Raises e /\ transactions res.2 = transactions w).
  { intros He. subst res.
    by destruct (process_one_reraised _ maximum_retry _ _ _ _ Ht Hs Hga He) as [-> ?]. }
  destruct e as [| |cls msg]; [by apply Hfatal|by apply Hfatal|].
  intros description Hu%(unicode_rendered cls). subst res.
  rewrite (process_one_absorbed _ maximum_retry _ _ _ _ _ Ht Hs Hga eq_refl Hu); simpl.
  split; [done|]. split; [|by rewrite last_snoc].
  exists (failed maximum_retry (now_func (clock w)) description t).
  split; [apply list_lookup_insert_eq; by eapply lookup_lt_Some|].
  unfold failed; simpl. repeat split. case_bool_decide; auto.
Qed.

(** C4: in a run whose gateway attempt succeeds, [create_customer] is called
    exactly when the customer has no external id; the identity it returns is
    assigned to the customer as its external id, and the customer carrying
    it is flushed before [prepare_customer] and the money movement are
    called, which both receive that customer; afterwards the record carries
    the identifier the gateway returned, the status [STATUS_DONE] and a
    fresh [updated_at], and the method ends with a flush of that state. *)
Theorem process_one_success (r : nat) (maximum_retry : Z) (w : World G)
    (t : Transaction) (cu : Customer) (transaction_id : string) :
  transactions w !! r = Some t ->
  customers w !! customer_of (subscription_guid t) = Some cu ->
  status t <> STATUS_DONE ->
  (gateway_attempt processor r (customer_of (subscription_guid t))
     (tables_now now_func w).2).1 = Returns transaction_id ->
  let res := process_one processor now_func customer_of r maximum_retry w in
  let t' := succeeded transaction_id (now_func (S (clock w))) t in
  res.1 = Returns tt
  /\ transactions res.2 = <[r := t']> (transactions w)
  /\ external_id t' = Some transaction_id /\ status t' = STATUS_DONE
  /\ updated_at t' = now_func (S (clock w))
  /\ (Exists (fun ev => is_create_customer ev = true) (new_events w res.2)
        <-> customer_external_id cu = None)
  /\ exists mv, movement t (Returns transaction_id) = Some mv
     /\ match customer_external_id cu with
        | None => exists cid cu',
            customer_external_id cu' = Some cid
            /\ customer_guid cu' = customer_guid cu
            /\ customers res.2 = <[customer_of (subscription_guid t) := cu']> (customers w)
            /\ customers res.2 !! customer_of (subscription_guid t) = Some cu'
            /\ new_events w res.2 =
                 [EvCreateCustomer cu (Returns cid);
                  EvFlush (transactions w) (customers res.2);
                  EvPrepareCustomer cu' (payment_uri t) (Returns tt);
                  mv;
                  EvFlush (transactions res.2) (customers res.2)]
        | Some _ =>
            customers res.2 = customers w
            /\ new_events w res.2 =
                 [EvPrepareCustomer cu (payment_uri t) (Returns tt);
                  mv;
                  EvFlush (transactions res.2) (customers res.2)]
        end.
Proof.
  intros Ht Hc Hs Hrun res t'.
  destruct (gateway_attempt _ _ _ _) as [o w1] eqn:Hga; simpl in Hrun; subst o.
  subst res. rewrite (process_one_completed _ maximum_retry _ _ _ _ Ht Hs Hga).
  simpl. split; [done|]. split; [done|]. split; [done|]. split; [done|].
  split; [done|].
  destruct (gateway_attempt_returns _ _ (tables_now now_func w).2 _ t cu _ Ht Hc Hga)
    as (mv & Hmv & Hcase).
  assert (Hmv' : is_create_customer mv = false).
  { unfold movement in Hmv. by repeat case_match; simplify_eq. }
  unfold new_events; simpl.
  destruct (customer_external_id cu) as [x|].
  - destruct Hcase as [Hcs Htr]. simpl in Htr.
    rewrite Htr, <- !(assoc_L (++)), drop_app_length. simpl.
    split.
    + split; [|done]. rewrite !Exists_cons, Exists_nil; simpl.
      intros [|[|[|[]]]]; congruence.
    + exists mv. by rewrite Hcs.
  - destruct Hcase as (cid & Hcs & Htr). simpl in Htr.
    rewrite Htr, <- !(assoc_L (++)), drop_app_length. simpl.
    split.
    + split; [done|]. intros _. by apply Exists_cons_hd.
    + exists mv. split; [done|].
      exists cid, (set_customer_external_id (Some cid) cu).
      split; [done|]. split; [done|]. rewrite Hcs. split; [done|].
      split; [|done]. apply list_lookup_insert_eq. by eapply lookup_lt_Some.
Qed.

End ProcessOne.

(** ** Creation and update *)

Ltac rejects := eexists; split; [reflexivity | exact I].

Lemma acceptable_cases (ty : Z) (uri target : option string)
    (rows : list Transaction) :
  acceptable ty uri target rows \/ ~ acceptable ty uri target rows.
Proof.
  destruct (decide (ty ∈ TYPE_ALL)) as [Hty|Hty]; [|right; by intros [? _]].
  destruct target as [g|]; [|by left].
  destruct (decide (ty = TYPE_REFUND)) as [Hr|Hr]; [|right; by intros (_ & ? & _)].
  destruct (decide (uri = None)) as [Hu|Hu]; [|right; by intros (_ & _ & ? & _)].
  destruct (list_find (fun t => guid t = g) rows) as [[i rt]|] eqn:Hf;
    [|right; intros (_ & _ & _ & ? & ? & ? & _); congruence].
  destruct (decide (transaction_type rt = TYPE_CHARGE)) as [Hc|Hc].
  - left. repeat split; eauto.
  - right. intros (_ & _ & _ & ? & ? & ? & ?). congruence.
Qed.

Section Create.

Context {G : Type}.
Variable now_func : nat -> Z.
Variable make_guid : nat -> string.

Lemma get_Some (g : string) (w : World G) (i : nat) (t : Transaction) :
  list_find (fun t => guid t = g) (transactions w) = Some (i, t) ->
  get g w = (Returns (i, t), w).
Proof. intros H. unfold get. by rewrite H. Qed.

Lemma get_None (g : string) (w : World G) :
  list_find (fun t => guid t = g) (transactions w) = None ->
  get g w = (Raises (Exception NotFound ("No such transaction " +:+ g)), w).
Proof. intros H. unfold get. by rewrite H. Qed.

Lemma create_accepted (subscription : string) (ty amount scheduled_at : Z)
    (uri target : option string) (w : World G) :
  acceptable ty uri target (transactions w) ->
  create now_func make_guid subscription ty amount scheduled_at uri target w
  = let t := created now_func make_guid subscription ty amount scheduled_at uri target w in
    let rows := transactions w ++ [t] in
    (Returns (guid t),
     {| transactions := rows; customers := customers w; gateway := gateway w;
        clock := S (clock w); guid_seed := S (guid_seed w);
        trace := trace w ++ [EvFlush rows (customers w)] |}).
Proof.
  intros [Hty Ht]. unfold create.
  rewrite bool_decide_false by (by intros ?).
  destruct target as [g|].
  - destruct Ht as (-> & -> & i & rt & Hfind & Hrt).
    unfold bind at 1. rewrite bool_decide_false by (by intros ?).
    rewrite bool_decide_false by (by intros ?).
    unfold bind at 1. rewrite (get_Some _ _ _ _ Hfind). simpl.
    by rewrite bool_decide_false by (by intros ?).
  - done.
Qed.

Lemma create_rejected (subscription : string) (ty amount scheduled_at : Z)
    (uri target : option string) (w : World G) :
  ~ acceptable ty uri target (transactions w) ->
  exists e,
    create now_func make_guid subscription ty amount scheduled_at uri target w
    = (Raises e, w)
    /\ (InvalidArgument e \/ is_NotFound e).
Proof.
  intros Hno. unfold create.
  case_bool_decide as Hty; [eexists; split; [done|by left]|].
  try apply dec_stable in Hty.
  destruct target as [g|]; [|by destruct Hno].
  unfold bind at 1.
  case_bool_decide as Href; [eexists; split; [done|by left]|].
  try apply dec_stable in Href.
  case_bool_decide as Huri; [eexists; split; [done|by left]|].
  try apply dec_stable in Huri.
  unfold bind at 1, get.
  destruct (list_find _ _) as [[i rt]|] eqn:Hfind; simpl;
    [|eexists; split; [done|by right]].
  case_bool_decide as Hrt; [eexists; split; [done|by left]|].
  try apply dec_stable in Hrt. destruct Hno. repeat split; eauto.
Qed.


Lemma list_find_guid_None (g : string) (rows : list Transaction) :
  list_find (fun t => guid t = g) rows = None
  <-> forall t, t ∈ rows -> guid t <> g.
Proof. by rewrite list_find_None, Forall_forall. Qed.

(** C5: [create] rejects an unknown type; with a refund target it rejects a
    type other than refund, a payment uri, a target that does not exist
    (not found) and a target that is not a charge; a rejected call leaves the
    world as it was; an accepted call appends exactly one record, in status
    init, with failure count 0 and both timestamps at the current time,
    flushes it and returns its identifier. *)
Theorem create_validates (subscription : string) (ty amount scheduled_at : Z)
    (uri target : option string) (w : World G) :
  let res :=
    create now_func make_guid subscription ty amount scheduled_at uri target w in
  (ty ∉ TYPE_ALL -> exists e, res = (Raises e, w) /\ InvalidArgument e)
  /\ (forall g, target = Some g ->
        (ty <> TYPE_REFUND -> exists e, res = (Raises e, w) /\ InvalidArgument e)
        /\ (uri <> None -> exists e, res = (Raises e, w) /\ InvalidArgument e)
        /\ (ty = TYPE_REFUND -> uri = None ->
            (forall t, t ∈ transactions w -> guid t <> g) ->
            exists e, res = (Raises e, w) /\ is_NotFound e)
        /\ (ty = TYPE_REFUND -> uri = None ->
            forall i rt,
              list_find (fun t => guid t = g) (transactions w) = Some (i, rt) ->
              transaction_type rt <> TYPE_CHARGE ->
              exists e, res = (Raises e, w) /\ InvalidArgument e))
  /\ (forall e, res.1 = Raises e -> res.2 = w)
  /\ (forall g, res.1 = Returns g ->
        exists t,
          transactions res.2 = transactions w ++ [t]
          /\ customers res.2 = customers w
          /\ guid t = g /\ status t = STATUS_INIT /\ failure_count t = 0%Z
          /\ created_at t = now_func (clock w)
          /\ updated_at t = now_func (clock w)
          /\ new_events w res.2 = [EvFlush (transactions res.2) (customers res.2)])
  /\ (acceptable ty uri target (transactions w) -> exists g, res.1 = Returns g).
Proof.
  intros res.
  pose proof (acceptable_cases ty uri target (transactions w)) as Hcases.
  split; [|split; [|split; [|split]]].
  - intros Hty. subst res. unfold create.
    rewrite bool_decide_true by done. rejects.
  - intros g ->. subst res. clear Hcases. unfold create.
    case_bool_decide as Hty;
      [repeat split; intros;
         first [rejects | exfalso; subst; apply Hty; unfold TYPE_ALL; set_solver]|].
    unfold bind at 1.
    case_bool_decide as Hr; [repeat split; intros; first [rejects | done]|].
    case_bool_decide as Hu; [repeat split; intros; first [rejects | done]|].
    split; [done|]. split; [done|]. split.
    + intros _ _ Hnone%list_find_guid_None.
      unfold bind, get. rewrite Hnone. rejects.
    + intros _ _ i rt Hfind Hrt.
      unfold bind, get. rewrite Hfind. simpl.
      rewrite bool_decide_true by done. rejects.
  - intros e He. destruct Hcases as [Hok|Hno].
    + subst res. by rewrite (create_accepted _ _ _ _ _ _ _ Hok) in He.
    + destruct (create_rejected subscription ty amount scheduled_at uri target w Hno)
        as (e' & Hrun & _).
      subst res. by rewrite Hrun.
  - intros g Hg. destruct Hcases as [Hok|Hno].
    + subst res. rewrite (create_accepted _ _ _ _ _ _ _ Hok) in Hg |- *.
      simpl in *. injection Hg as <-.
      eexists. repeat split.
      unfold new_events. simpl. by rewrite drop_app_length.
    + destruct (create_rejected subscription ty amount scheduled_at uri target w Hno)
        as (e' & Hrun & _).
      subst res. by rewrite Hrun in Hg.
  - intros Hok. subst res. rewrite (create_accepted _ _ _ _ _ _ _ Hok). by eexists.
Qed.

End Create.

Section Update.

Context {G : Type}.
Variable now_func : nat -> Z.

Lemma update_not_found (g : string) (kwargs : gmap string Z) (w : World G) :
  (forall t, t ∈ transactions w -> guid t <> g) ->
  update now_func g kwargs w
  = (Raises (Exception NotFound ("No such transaction " +:+ g)), w).
Proof.
  intros Hnone%list_find_guid_None. unfold update, bind.
  by rewrite (get_None _ _ Hnone).
Qed.

Lemma update_found (g : string) (kwargs : gmap string Z) (w : World G)
    (i : nat) (t : Transaction) :
  list_find (fun t => guid t = g) (transactions w) = Some (i, t) ->
  let now := now_func (clock w) in
  let w1 := with_transactions (<[i := set_updated_at now t]> (transactions w))
              (tables_now now_func w).2 in
  update now_func g kwargs w
  = match kwargs !! "status" with
    | Some s =>
        if bool_decide (s ∉ STATUS_ALL) then
          (Raises (Exception ValueError ("Invalid status " +:+ pretty s)), w1)
        else
          let w2 := with_transactions
                      (<[i := updated now (Some s) t]> (transactions w)) w1 in
          if bool_decide (delete "status" kwargs ≠ ∅) then
            (Raises (unknown_attributes (delete "status" kwargs)), w2)
          else
            (Returns tt,
             with_event (EvFlush (transactions w2) (customers w2)) w2)
    | None =>
        if bool_decide (kwargs ≠ ∅) then
          (Raises (unknown_attributes kwargs), w1)
        else
          (Returns tt, with_event (EvFlush (transactions w1) (customers w1)) w1)
    end.
Proof.
  intros Hfind now w1.
  assert (Hi : transactions w !! i = Some t).
  { by apply list_find_Some in Hfind as (? & _). }
  unfold update. unfold bind at 1. rewrite (get_Some _ _ _ _ Hfind).
  unfold bind, assign, tables_now, session_add, session_flush, ret, raise; simpl.
  rewrite (alter_as_insert _ _ _ _ Hi). fold now.
  destruct (kwargs !! "status") as [s|]; simpl.
  - case_bool_decide; [done|]. simpl.
    rewrite (alter_as_insert _ (<[i:=_]> _) i (set_updated_at now t))
      by (apply list_lookup_insert_eq; by eapply lookup_lt_Some).
    rewrite list_insert_insert_eq.
    by case_bool_decide.
  - by case_bool_decide.
Qed.


Lemma recognized_alt (kwargs : gmap string Z) :
  recognized kwargs
  <-> match kwargs !! "status" with
      | Some s => s ∈ STATUS_ALL /\ delete "status" kwargs = ∅
      | None => kwargs = ∅
      end.
Proof.
  unfold recognized. destruct (kwargs !! "status") as [s|] eqn:Hs.
  - split.
    + intros [H1 H2]. split; [by apply H1|].
      apply map_eq. intros k. rewrite lookup_empty.
      destruct (decide (k = "status")) as [->|Hk].
      * by rewrite lookup_delete_eq.
      * rewrite lookup_delete_ne by done. by apply H2.
    + intros [H1 H2]. split; [by intros ? [= <-]|].
      intros k Hk. rewrite <- (lookup_delete_ne kwargs "status" k) by done.
      by rewrite H2.
  - split.
    + intros [_ H2]. apply map_eq. intros k. rewrite lookup_empty.
      destruct (decide (k = "status")) as [->|Hk]; [done|by apply H2].
    + intros ->. split; [done|]. intros k _. by rewrite lookup_empty.
Qed.

(** C8, as the code has it: [update] fails with not-found when the guid does
    not resolve, and then leaves the world as it was; on a record that exists
    it fails with an invalid-argument error when the given status is not one
    of the five known values or when any attribute other than [status] is
    given; no failing call flushes; a call with recognized arguments returns,
    refreshes [updated_at], assigns the status if one is given, and
    flushes. *)
Theorem update_checks (g : string) (kwargs : gmap string Z) (w : World G) :
  let res := update now_func g kwargs w in
  ((forall t, t ∈ transactions w -> guid t <> g) ->
     exists e, res = (Raises e, w) /\ is_NotFound e)
  /\ (forall i t,
        list_find (fun t => guid t = g) (transactions w) = Some (i, t) ->
        (forall s, kwargs !! "status" = Some s -> s ∉ STATUS_ALL ->
           exists e, res.1 = Raises e /\ InvalidArgument e)
        /\ (forall k, k <> "status" -> is_Some (kwargs !! k) ->
           exists e, res.1 = Raises e /\ InvalidArgument e)
        /\ (forall e, res.1 = Raises e ->
           new_events w res.2 = [] /\ customers res.2 = customers w
           /\ forall j, j <> i -> transactions res.2 !! j = transactions w !! j)
        /\ (res.1 = Returns tt <-> recognized kwargs)
        /\ (res.1 = Returns tt ->
           transactions res.2
           = <[i := updated (now_func (clock w)) (kwargs !! "status") t]> (transactions w)
           /\ customers res.2 = customers w
           /\ new_events w res.2 = [EvFlush (transactions res.2) (customers res.2)])).
Proof.
  intros res. split.
  - intros Hnone. subst res. rewrite (update_not_found _ _ _ Hnone). rejects.
  - intros i t Hfind. subst res. rewrite (update_found _ _ _ _ _ Hfind).
    rewrite recognized_alt. unfold new_events.
    destruct (kwargs !! "status") as [s|] eqn:Hs.
    + case_bool_decide as Hin; [|case_bool_decide as Hrest]; simpl.
      * split; [intros; rejects|]. split; [intros; rejects|].
        split; [|split; [|done]].
        -- intros e _. rewrite drop_all. split; [done|]. split; [done|].
           intros j Hj. by apply list_lookup_insert_ne.
        -- split; [done|]. by intros [? _].
      * split; [intros ? [= <-] ?; done|]. split; [intros; rejects|].
        split; [|split; [|done]].
        -- intros e _. rewrite drop_all. split; [done|]. split; [done|].
           intros j Hj. by apply list_lookup_insert_ne.
        -- split; [done|]. by intros [_ ?].
      * split; [intros ? [= <-] ?; done|]. split.
        { intros k Hk [x Hx]. exfalso.
          rewrite <- (lookup_delete_ne kwargs "status" k) in Hx by done.
          by rewrite Hrest, lookup_empty in Hx. }
        split; [done|]. split; [done|].
        intros _. split; [done|]. split; [done|]. by rewrite drop_app_length.
    + case_bool_decide as Hrest; simpl.
      * split; [done|]. split; [intros; rejects|].
        split; [|split; [|done]].
        -- intros e _. rewrite drop_all. split; [done|]. split; [done|].
           intros j Hj. by apply list_lookup_insert_ne.
        -- split; [done|]. done.
      * split; [done|]. split.
        { intros k Hk [x Hx]. exfalso.
          by rewrite Hrest, lookup_empty in Hx. }
        split; [done|]. split; [done|].
        intros _. split; [done|]. split; [done|]. by rewrite drop_app_length.
Qed.

End Update.

(** ** The batch *)

Section Batch.

Context {G : Type}.
Variable processor : Processor G.
Variable now_func : nat -> Z.
Variable customer_of : string -> nat.
Variable scan_position : World G -> option (list string) -> nat -> nat.

Lemma gateway_attempt_never_fatal (tx c : nat) (w : World G) (e : exn) :
  never_fatal processor ->
  (gateway_attempt processor tx c w).1 = Raises e -> fatal e = false.
Proof.
  intros (Hcc & Hpc & Hch & Hpo & Hrf).
  unfold gateway_attempt, bind, load_customer, load, assign_customer,
    session_add, session_flush, ret, raise, select_method,
    call_create_customer, call_prepare_customer, call_charge, call_payout,
    call_refund.
  simpl. intros Hrun.
  repeat (case_match; simplify_eq/=);
    match goal with
    | H : create_customer _ _ _ = (Raises _, _) |- _ =>
        eapply Hcc; by rewrite H
    | H : prepare_customer _ _ _ _ = (Raises _, _) |- _ =>
        eapply Hpc; by rewrite H
    | H : charge _ _ _ = (Raises _, _) |- _ => eapply Hch; by rewrite H
    | H : payout _ _ _ = (Raises _, _) |- _ => eapply Hpo; by rewrite H
    | H : refund _ _ _ = (Raises _, _) |- _ => eapply Hrf; by rewrite H
    | _ => done
    end.
Qed.

Lemma gateway_attempt_legible (tx c : nat) (w : World G) (e : exn) :
  legible_failures processor ->
  (gateway_attempt processor tx c w).1 = Raises e -> legible e.
Proof.
  intros (Hcc & Hpc & Hch & Hpo & Hrf).
  unfold gateway_attempt, bind, load_customer, load, assign_customer,
    session_add, session_flush, ret, raise, select_method,
    call_create_customer, call_prepare_customer, call_charge, call_payout,
    call_refund.
  simpl. intros Hrun.
  repeat (case_match; simplify_eq/=);
    match goal with
    | H : create_customer _ _ _ = (Raises _, _) |- _ =>
        eapply Hcc; by rewrite H
    | H : prepare_customer _ _ _ _ = (Raises _, _) |- _ =>
        eapply Hpc; by rewrite H
    | H : charge _ _ _ = (Raises _, _) |- _ => eapply Hch; by rewrite H
    | H : payout _ _ _ = (Raises _, _) |- _ => eapply Hpo; by rewrite H
    | H : refund _ _ _ = (Raises _, _) |- _ => eapply Hrf; by rewrite H
    | _ => by eexists
    end.
Qed.

(** Every way [process_one] can end on a record of the session. *)
Lemma process_one_cases (r : nat) (m : Z) (w : World G) (t : Transaction) :
  transactions w !! r = Some t ->
  let res := process_one processor now_func customer_of r m w in
  (status t = STATUS_DONE /\ res.2 = w /\ exists e, res.1 = Raises e /\ InvalidArgument e)
  \/ (status t <> STATUS_DONE
      /\ ((exists e, fatal e = true /\ res.1 = Raises e
                     /\ transactions res.2 = transactions w)
          \/ (exists t', attempted m t t' /\ res.1 = Returns tt
                         /\ transactions res.2 = <[r := t']> (transactions w))
          \/ (exists msg, res.1 = Raises (Exception UnicodeDecodeError msg)
                          /\ transactions res.2 = <[r := marked t]> (transactions w)))).
Proof.
  intros Ht res. destruct (decide (status t = STATUS_DONE)) as [Hs|Hs].
  - left. subst res. rewrite (process_one_done _ _ _ _ _ _ _ Ht Hs).
    split; [done|]. split; [done|]. rejects.
  - right. split; [done|].
    destruct (gateway_attempt processor r (customer_of (subscription_guid t))
                (tables_now now_func w).2) as [[id|e] w1] eqn:Hga.
    + right. left. subst res.
      rewrite (process_one_completed _ _ _ _ m _ _ _ _ Ht Hs Hga).
      eexists. split; [left; eauto|]. done.
    + destruct (fatal e) eqn:He.
      * left. exists e. subst res.
        destruct (process_one_reraised _ _ _ _ m _ _ _ _ Ht Hs Hga He) as [-> ?].
        done.
      * destruct (unicode e) as [description|e'] eqn:Hu.
        -- right. left. subst res.
           rewrite (process_one_absorbed _ _ _ _ m _ _ _ _ _ Ht Hs Hga He Hu).
           eexists. split; [right; eauto|]. done.
        -- right. right. subst res.
           rewrite (process_one_garbled _ _ _ _ m _ _ _ _ _ Ht Hs Hga Hu).
           destruct (unicode_raises _ _ Hu) as (_ & _ & _ & ? & ? & msg & _ & _ & ->).
           by exists msg.
Qed.


Lemma process_one_returns (r : nat) (m : Z) (w : World G) (t : Transaction) :
  never_fatal processor -> legible_failures processor ->
  transactions w !! r = Some t -> status t <> STATUS_DONE ->
  (process_one processor now_func customer_of r m w).1 = Returns tt.
Proof.
  intros Hnf Hlg Ht Hs.
  destruct (gateway_attempt processor r (customer_of (subscription_guid t))
              (tables_now now_func w).2) as [[id|e] w1] eqn:Hga.
  - by rewrite (process_one_completed _ _ _ _ m _ _ _ _ Ht Hs Hga).
  - assert (He : fatal e = false).
    { eapply gateway_attempt_never_fatal; [done|]. by rewrite Hga. }
    assert (Hu : legible e).
    { eapply gateway_attempt_legible; [done|]. by rewrite Hga. }
    destruct Hu as [description Hu].
    by rewrite (process_one_absorbed _ _ _ _ m _ _ _ _ _ Ht Hs Hga He Hu).
Qed.

Lemma attempted_guid (m : Z) (t t' : Transaction) :
  attempted m t t' -> guid t' = guid t.
Proof. by intros [(? & ? & ->)|(? & ? & ->)]. Qed.

(** The scan of an unordered query yields each selected row once. *)
Lemma scan_Permutation (position : nat -> nat) (rows : list nat) :
  scan position rows ≡ₚ rows.
Proof. apply merge_sort_Permutation. Qed.

Lemma scan_elem_of (position : nat -> nat) (rows : list nat) (r : nat) :
  r ∈ scan position rows <-> r ∈ rows.
Proof. by rewrite scan_Permutation. Qed.

Lemma scan_NoDup (position : nat -> nat) (rows : list nat) :
  NoDup rows -> NoDup (scan position rows).
Proof. by rewrite scan_Permutation. Qed.

Lemma scan_nil (position : nat -> nat) : scan position [] = [].
Proof. apply Permutation_nil_r, scan_Permutation. Qed.

#[local] Instance scanned_first_total (position : nat -> nat) :
  Total (scanned_first position).
Proof. intros a b. unfold scanned_first. lia. Qed.

#[local] Instance scanned_first_trans (position : nat -> nat) :
  Transitive (scanned_first position).
Proof. intros a b c. unfold scanned_first. lia. Qed.

Lemma scan_sorted (position : nat -> nat) (rows : list nat) :
  StronglySorted (scanned_first position) (scan position rows).
Proof. apply StronglySorted_merge_sort; apply _. Qed.

(** The rows a query yields: positions, order and content. *)
Lemma query_from_elem_of (keep : Transaction -> bool) (rows : list Transaction)
    (r i : nat) :
  i ∈ query_from keep r rows
  <-> r <= i /\ exists t, rows !! (i - r) = Some t /\ keep t = true.
Proof.
  revert r. induction rows as [|t rows IH]; intros r; simpl.
  - split; [by intros ?%elem_of_nil|by intros (_ & ? & ? & _)].
  - assert (Hshift : i ∈ query_from keep (S r) rows
                     <-> r < i /\ exists t', (t :: rows) !! (i - r) = Some t'
                                             /\ keep t' = true).
    { rewrite IH. split.
      - intros (Hle & t' & Hl & Hk). split; [lia|]. exists t'. split; [|done].
        replace (i - r) with (S (i - S r)) by lia. done.
      - intros (Hlt & t' & Hl & Hk). split; [lia|]. exists t'. split; [|done].
        replace (i - r) with (S (i - S r)) in Hl by lia. done. }
    destruct (keep t) eqn:Hkeep.
    + rewrite elem_of_cons, Hshift. split.
      * intros [->|(Hlt & Hex)]; [|split; [lia|done]].
        split; [done|]. exists t. by rewrite Nat.sub_diag.
      * intros (Hle & t' & Hl & Hk).
        destruct (decide (i = r)) as [->|Hne]; [by left|right].
        split; [lia|]. eauto.
    + rewrite Hshift. split.
      * intros (Hlt & Hex). split; [lia|done].
      * intros (Hle & t' & Hl & Hk).
        destruct (decide (i = r)) as [->|Hne].
        -- rewrite Nat.sub_diag in Hl. simpl in Hl. congruence.
        -- split; [lia|]. eauto.
Qed.

Lemma query_from_ascending (keep : Transaction -> bool) (rows : list Transaction)
    (r : nat) :
  StronglySorted lt (query_from keep r rows).
Proof.
  revert r. induction rows as [|t rows IH]; intros r; simpl; [constructor|].
  destruct (keep t); [|done].
  constructor; [done|]. apply Forall_forall. intros i Hi.
  apply query_from_elem_of in Hi. lia.
Qed.

Lemma query_from_NoDup (keep : Transaction -> bool) (rows : list Transaction)
    (r : nat) :
  NoDup (query_from keep r rows).
Proof.
  pose proof (query_from_ascending keep rows r) as Hs.
  induction Hs as [|i l Hs IH Hall]; constructor; [|done].
  intros Hin. rewrite Forall_forall in Hall. specialize (Hall _ Hin). lia.
Qed.

Lemma query_from_rows (keep : Transaction -> bool) (rows front : list Transaction) :
  (fun i => (front ++ rows) !!! i) <$> query_from keep (length front) rows
  = filter (fun t => keep t = true) rows.
Proof.
  revert front. induction rows as [|t rows IH]; intros front; [done|].
  specialize (IH (front ++ [t])).
  rewrite length_app, Nat.add_1_r, <- (assoc_L (++)) in IH.
  change ([t] ++ rows) with (t :: rows) in IH.
  rewrite filter_cons. cbn [query_from]. destruct (keep t) eqn:Hkeep.
  - rewrite decide_True by done. rewrite fmap_cons, IH. f_equal.
    by rewrite list_lookup_total_middle.
  - rewrite decide_False by (by intros ?). done.
Qed.


Lemma process_each_cons (r : nat) (rows : list nat) (m : Z)
    (acc : list string) (w : World G) :
  process_each processor now_func customer_of (r :: rows) m acc w
  = match process_one processor now_func customer_of r m w with
    | (Returns _, w1) =>
        process_each processor now_func customer_of rows m
          (acc ++ [guid (transactions w1 !!! r)]) w1
    | (Raises e, w1) => (Raises e, w1)
    end.
Proof. done. Qed.

(** The loop: what it returns and what it leaves in the session. *)
Lemma process_each_spec (rows : list nat) (m : Z) (acc : list string) (w : World G) :
  NoDup rows ->
  (forall r, r ∈ rows ->
     exists t, transactions w !! r = Some t /\ status t <> STATUS_DONE) ->
  let res := process_each processor now_func customer_of rows m acc w in
  (forall j, j ∉ rows -> transactions res.2 !! j = transactions w !! j)
  /\ (forall e, res.1 = Raises e ->
        fatal e = true \/ exists msg, e = Exception UnicodeDecodeError msg)
  /\ (never_fatal processor -> legible_failures processor ->
        exists l, res.1 = Returns l)
  /\ (forall l, res.1 = Returns l ->
        l = acc ++ ((fun r => guid (transactions w !!! r)) <$> rows)
        /\ forall r t, r ∈ rows -> transactions w !! r = Some t ->
             exists t', transactions res.2 !! r = Some t' /\ attempted m t t').
Proof.
  revert acc w. induction rows as [|r rows IH]; intros acc w Hnd Hrows res.
  - subst res. simpl. split; [done|]. split; [done|]. split; [by eexists|].
    intros l [= <-]. split; [by rewrite app_nil_r|]. by intros ?? ?%elem_of_nil.
  - apply NoDup_cons in Hnd as [Hr Hnd].
    destruct (Hrows r) as (t & Ht & Hs); [by left|].
    pose proof (process_one_cases r m w t Ht) as Hone.
    pose proof (process_one_returns r m w t) as Hnf.
    subst res. rewrite process_each_cons.
    destruct (process_one processor now_func customer_of r m w) as [o w1].
    simpl in Hone, Hnf.
    destruct Hone as [[Hd _]|[_ [(e & He & -> & Htx)|[(t' & Hatt & -> & Htx)
                                                     |(msg & -> & Htx)]]]];
      [done| | |].
    + simpl. split; [by rewrite Htx|]. split; [intros ? [= ?]; subst; by left|].
      split; [intros Hp Hq; by specialize (Hnf Hp Hq Ht Hs)|done].
    + assert (Ht' : transactions w1 !! r = Some t').
      { rewrite Htx. apply list_lookup_insert_eq. by eapply lookup_lt_Some. }
      rewrite (list_lookup_total_correct _ _ _ Ht').
      specialize (IH (acc ++ [guid t']) w1 Hnd).
      destruct IH as (IH1 & IH2 & IH3 & IH4).
      { intros r' Hr'. destruct (Hrows r') as (x & Hx & Hxs); [by right|].
        exists x. split; [|done].
        rewrite Htx, list_lookup_insert_ne; [done|]. by intros ->. }
      split; [|split; [done|split; [done|]]].
      * intros j Hj. apply not_elem_of_cons in Hj as [Hjr Hj].
        rewrite (IH1 j Hj), Htx. by apply list_lookup_insert_ne.
      * intros l Hl. destruct (IH4 l Hl) as [-> Hall]. split.
        -- rewrite fmap_cons, <- (assoc_L (++)). simpl.
           rewrite (list_lookup_total_correct _ _ _ Ht),
             (attempted_guid _ _ _ Hatt).
           do 2 f_equal. apply list_fmap_ext. intros k r' Hk.
           assert (r' <> r) by (intros ->; apply Hr; by eapply list_elem_of_lookup_2).
           by rewrite Htx, list_lookup_total_insert_ne.
        -- intros r' x [->|Hr']%elem_of_cons Hx.
           ++ rewrite Ht in Hx. injection Hx as <-. exists t'. split; [|done].
              by rewrite (IH1 r Hr).
           ++ apply (Hall r' x Hr').
              rewrite Htx, list_lookup_insert_ne; [done|]. by intros ->.
    + simpl. split.
      { intros j Hj. apply not_elem_of_cons in Hj as [Hjr Hj].
        rewrite Htx. by apply list_lookup_insert_ne. }
      split; [intros ? [= <-]; right; by eexists|].
      split; [intros Hp Hq; by specialize (Hnf Hp Hq Ht Hs)|done].
Qed.


Lemma selected_status (guids : option (list string)) (t : Transaction) :
  selected guids t = true
  <-> (status t = STATUS_INIT \/ status t = STATUS_RETRYING)
      /\ forall gs, guids = Some gs -> guid t ∈ gs.
Proof.
  unfold selected. rewrite andb_true_iff, bool_decide_eq_true.
  rewrite !elem_of_cons, elem_of_nil.
  destruct guids as [gs|].
  - rewrite bool_decide_eq_true. split.
    + intros [[?|[?|[]]] ?]; (split; [auto|by intros ? [= <-]]).
    + intros [[?|?] Hg]; (split; [auto|by apply Hg]).
  - split.
    + intros [[?|[?|[]]] _]; (split; [auto|done]).
    + intros [[?|?] _]; auto.
Qed.

Lemma query_visits (guids : option (list string)) (w : World G) :
  (fun r => transactions w !!! r) <$> query_from (selected guids) 0 (transactions w)
  = filter (fun t => selected guids t = true) (transactions w).
Proof. apply (query_from_rows (selected guids) (transactions w) []). Qed.

Lemma query_elem_of (guids : option (list string)) (w : World G) (r : nat) :
  r ∈ scan (scan_position w guids) (query_from (selected guids) 0 (transactions w))
  <-> exists t, transactions w !! r = Some t /\ selected guids t = true.
Proof.
  rewrite scan_elem_of, query_from_elem_of, Nat.sub_0_r.
  split; [by intros [_ ?]|]. intros ?. split; [lia|done].
Qed.

Lemma query_NoDup (guids : option (list string)) (w : World G) :
  NoDup (scan (scan_position w guids)
           (query_from (selected guids) 0 (transactions w))).
Proof. apply scan_NoDup, query_from_NoDup. Qed.

Lemma query_rows_valid (guids : option (list string)) (w : World G) (r : nat) :
  r ∈ scan (scan_position w guids) (query_from (selected guids) 0 (transactions w)) ->
  exists t, transactions w !! r = Some t /\ status t <> STATUS_DONE.
Proof.
  intros (t & Ht & Hsel)%query_elem_of.
  exists t. split; [done|].
  apply selected_status in Hsel as [[Hs|Hs] _]; by rewrite Hs.
Qed.

Lemma process_transactions_spec (guids : option (list string))
    (maximum_retry : Z) (w : World G) :
  let res := process_transactions processor now_func customer_of scan_position
               guids maximum_retry w in
  let chosen := filter (fun t => selected guids t = true) (transactions w) in
  let visited :=
    (fun r => transactions w !!! r)
    <$> scan (scan_position w guids)
          (query_from (selected guids) 0 (transactions w)) in
  (forall t, t ∈ chosen <->
     t ∈ transactions w
     /\ (status t = STATUS_INIT \/ status t = STATUS_RETRYING)
     /\ forall gs, guids = Some gs -> guid t ∈ gs)
  /\ visited ≡ₚ chosen
  /\ (forall e, res.1 = Raises e ->
        fatal e = true \/ exists msg, e = Exception UnicodeDecodeError msg)
  /\ (never_fatal processor -> legible_failures processor ->
        res.1 = Returns (guid <$> visited))
  /\ (forall l, res.1 = Returns l ->
        l = guid <$> visited
        /\ forall r t, transactions w !! r = Some t ->
             if selected guids t
             then exists t', transactions res.2 !! r = Some t'
                             /\ attempted maximum_retry t t'
             else transactions res.2 !! r = Some t).
Proof.
  intros res chosen visited.
  set (rows := scan (scan_position w guids)
                 (query_from (selected guids) 0 (transactions w))) in *.
  assert (Hres : res = process_each processor now_func customer_of rows
                         maximum_retry [] w) by done.
  assert (Hrows : forall r, r ∈ rows <->
            exists t, transactions w !! r = Some t /\ selected guids t = true)
    by apply query_elem_of.
  assert (Hguids : (fun r => guid (transactions w !!! r)) <$> rows = guid <$> visited).
  { unfold visited. by rewrite <- list_fmap_compose. }
  destruct (process_each_spec rows maximum_retry [] w) as (H1 & H2 & H3 & H4).
  { apply query_NoDup. }
  { apply query_rows_valid. }
  rewrite <- Hres in H1, H2, H3, H4.
  split; [|split; [|split; [done|split]]].
  - intros t. unfold chosen. rewrite list_elem_of_filter, selected_status.
    tauto.
  - unfold visited, chosen, rows. rewrite scan_Permutation. by rewrite query_visits.
  - intros Hnf Hlg. destruct (H3 Hnf Hlg) as [l Hl].
    destruct (H4 l Hl) as [-> _]. by rewrite Hl, Hguids.
  - intros l Hl. destruct (H4 l Hl) as [-> Hatt]. split; [by rewrite Hguids|].
    intros r t Ht. destruct (selected guids t) eqn:Hsel.
    + apply (Hatt r t); [|done]. apply Hrows. eauto.
    + rewrite H1; [done|]. intros (t' & Ht' & Hsel')%Hrows. congruence.
Qed.

(** X22: [process_transactions] picks exactly the records in status init or
    retrying (and, when guids are given, among those guids); when it
    returns, it has attempted each of them once and left the others alone,
    and it returns the guids of the records it picked, each once, in the
    order in which they were visited, whatever became of each attempt; an
    error it raises is a termination signal or the decoding error of
    [unicode]; with a processor that raises no termination signal and whose
    failures carry a message [unicode] renders, it returns. *)
Theorem process_transactions_selected (guids : option (list string))
    (maximum_retry : Z) (w : World G) :
  let res := process_transactions processor now_func customer_of scan_position
               guids maximum_retry w in
  let chosen := filter (fun t => selected guids t = true) (transactions w) in
  (forall t, t ∈ chosen <->
     t ∈ transactions w
     /\ (status t = STATUS_INIT \/ status t = STATUS_RETRYING)
     /\ forall gs, guids = Some gs -> guid t ∈ gs)
  /\ (forall e, res.1 = Raises e ->
        fatal e = true \/ exists msg, e = Exception UnicodeDecodeError msg)
  /\ (never_fatal processor -> legible_failures processor ->
        exists l, res.1 = Returns l)
  /\ (forall l, res.1 = Returns l ->
        l ≡ₚ guid <$> chosen
        /\ forall r t, transactions w !! r = Some t ->
             if selected guids t
             then exists t', transactions res.2 !! r = Some t'
                             /\ attempted maximum_retry t t'
             else transactions res.2 !! r = Some t).
Proof.
  intros res chosen.
  destruct (process_transactions_spec guids maximum_retry w)
    as (H1 & H2 & H3 & H4 & H5).
  split; [done|]. split; [done|]. split; [by eauto|].
  intros l Hl. destruct (H5 l Hl) as [-> Hrows]. split; [|done].
  by rewrite H2.
Qed.

(** An arrangement of rows is the scan of the positions it gives them. *)
Lemma place_elem_of (arrangement : list nat) (a b : nat) :
  a ∈ arrangement -> place arrangement a = place arrangement b -> a = b.
Proof.
  induction arrangement as [|x rest IH]; [by intros ?%elem_of_nil|].
  intros Ha. simpl. repeat case_decide; try congruence.
  intros [= Hp]. apply IH; [|done].
  apply elem_of_cons in Ha as [?|?]; [congruence|done].
Qed.

Lemma StronglySorted_ext {A} (R R' : relation A) (l : list A) :
  (forall a b, a ∈ l -> b ∈ l -> R a b -> R' a b) ->
  StronglySorted R l -> StronglySorted R' l.
Proof.
  intros Himpl Hs. induction Hs as [|x l Hs IH Hall]; [constructor|].
  constructor.
  - apply IH. intros a b Ha Hb. apply Himpl; by right.
  - rewrite Forall_forall in Hall |- *. intros y Hy.
    apply Himpl; [by left|by right|by apply Hall].
Qed.

Lemma place_sorted (arrangement : list nat) :
  NoDup arrangement ->
  StronglySorted (scanned_first (place arrangement)) arrangement.
Proof.
  induction 1 as [|x rest Hx Hnd IH]; [constructor|].
  constructor.
  - apply (StronglySorted_ext (scanned_first (place rest))); [|done].
    intros a b Ha Hb. unfold scanned_first. simpl.
    rewrite !decide_False by (intros ->; done). lia.
  - apply Forall_forall. intros y _. unfold scanned_first. simpl.
    rewrite decide_True by done. lia.
Qed.

Lemma scan_place (arrangement rows : list nat) :
  NoDup rows -> arrangement ≡ₚ rows ->
  scan (place arrangement) rows = arrangement.
Proof.
  intros Hnd Hperm.
  apply (StronglySorted_unique_strong (scanned_first (place arrangement))).
  - intros a b Ha Hb Hab Hba. unfold scanned_first in *.
    apply (place_elem_of arrangement); [|lia].
    by rewrite Hperm, <- (scan_elem_of (place arrangement)).
  - apply scan_sorted.
  - apply place_sorted. by rewrite Hperm.
  - by rewrite scan_Permutation.
Qed.

(** C7, as the code has it: the query carries no ordering and the loop adds
    none: the selected records are visited, each once, in the order in which
    the database yields the rows of the query, and the returned guids follow
    that order; the code fixes none, so every arrangement of the selected
    records is the visiting order under some scan of the database. *)
Theorem process_transactions_scan_order (guids : option (list string))
    (maximum_retry : Z) (w : World G) :
  let selection := query_from (selected guids) 0 (transactions w) in
  let rows := scan (scan_position w guids) selection in
  let visited := (fun r => transactions w !!! r) <$> rows in
  process_transactions processor now_func customer_of scan_position guids
    maximum_retry w
  = process_each processor now_func customer_of rows maximum_retry [] w
  /\ rows ≡ₚ selection
  /\ NoDup rows
  /\ visited ≡ₚ filter (fun t => selected guids t = true) (transactions w)
  /\ (forall l,
        (process_transactions processor now_func customer_of scan_position guids
           maximum_retry w).1 = Returns l ->
        l = guid <$> visited)
  /\ (forall arrangement, arrangement ≡ₚ selection ->
        process_transactions processor now_func customer_of
          (fun _ _ => place arrangement) guids maximum_retry w
        = process_each processor now_func customer_of arrangement maximum_retry [] w).
Proof.
  intros selection rows visited.
  destruct (process_transactions_spec guids maximum_retry w)
    as (_ & Hperm & _ & _ & Hl).
  split; [done|]. split; [apply scan_Permutation|].
  split; [apply query_NoDup|]. split; [done|]. split.
  - intros l Hres. by destruct (Hl l Hres) as [-> _].
  - intros arrangement Harr.
    unfold process_transactions, bind, query. fold selection.
    by rewrite (scan_place arrangement selection (query_from_NoDup _ _ _) Harr).
Qed.

End Batch.

(** ** Invariants of the session *)

Section Evolution.

Context {G : Type}.
Variable processor : Processor G.
Variable now_func : nat -> Z.
Variable make_guid : nat -> string.
Variable customer_of : string -> nat.
Variable scan_position : World G -> option (list string) -> nat -> nat.

Lemma evolved_refl (t : Transaction) : evolved t t.
Proof. unfold evolved. auto 10. Qed.

Lemma evolved_trans (t1 t2 t3 : Transaction) :
  evolved t1 t2 -> evolved t2 t3 -> evolved t1 t3.
Proof.
  intros (Hg & Hty & Hu & Hr & Hm) (Hg' & Hty' & Hu' & Hr' & Hm').
  repeat split; try congruence.
  destruct Hm as [[Hm1 Hm2]|[Hm1 Hm2]], Hm' as [[Hn1 Hn2]|[Hn1 Hn2]].
  - left. split; congruence.
  - right. split; [done|lia].
  - right. split; [by rewrite Hn1|lia].
  - right. split; [done|lia].
Qed.

Lemma evolved_rows_refl (rows : list Transaction) : Forall2 evolved rows rows.
Proof. apply Forall_Forall2_diag, Forall_forall. intros ? _. apply evolved_refl. Qed.

Lemma evolved_rows_trans (l1 l2 l3 : list Transaction) :
  Forall2 evolved l1 l2 -> Forall2 evolved l2 l3 -> Forall2 evolved l1 l3.
Proof. apply Forall2_trans. intros ???. apply evolved_trans. Qed.

Lemma evolved_rows_insert (rows : list Transaction) (r : nat) (t t' : Transaction) :
  rows !! r = Some t -> evolved t t' -> Forall2 evolved rows (<[r := t']> rows).
Proof.
  intros Ht Hev. rewrite <- (list_insert_id rows r t Ht) at 1.
  apply Forall2_insert; [apply evolved_rows_refl|done].
Qed.

Lemma attempted_evolved (m : Z) (t t' : Transaction) :
  attempted m t t' -> evolved t t'.
Proof.
  intros [(id & now & ->)|(description & now & ->)]; unfold evolved; simpl.
  - auto 10.
  - repeat split; try done. right. split; [by eexists|lia].
Qed.

Lemma marked_evolved (t : Transaction) : evolved t (marked t).
Proof. unfold evolved. simpl. auto 10. Qed.

Lemma process_one_evolves (r : nat) (m : Z) (w : World G) (t : Transaction) :
  transactions w !! r = Some t ->
  Forall2 evolved (transactions w)
    (transactions (process_one processor now_func customer_of r m w).2).
Proof.
  intros Ht.
  destruct (process_one_cases processor now_func customer_of r m w t Ht)
    as [(_ & -> & _)|(_ & [(e & _ & _ & ->)|[(t' & Hatt & _ & ->)|(msg & _ & ->)]])].
  - apply evolved_rows_refl.
  - apply evolved_rows_refl.
  - eapply evolved_rows_insert; [done|]. by eapply attempted_evolved.
  - eapply evolved_rows_insert; [done|]. apply marked_evolved.
Qed.

Lemma process_each_evolves (rows : list nat) (m : Z) (acc : list string) (w : World G) :
  (forall r, r ∈ rows -> r < length (transactions w)) ->
  Forall2 evolved (transactions w)
    (transactions (process_each processor now_func customer_of rows m acc w).2).
Proof.
  revert acc w. induction rows as [|r rows IH]; intros acc w Hrows.
  - apply evolved_rows_refl.
  - rewrite process_each_cons.
    destruct (lookup_lt_is_Some_2 (transactions w) r) as [t Ht];
      [apply Hrows; by left|].
    pose proof (process_one_evolves r m w t Ht) as Hone.
    destruct (process_one processor now_func customer_of r m w) as [[[]|e] w1];
      simpl in Hone; [|done].
    eapply evolved_rows_trans; [done|]. apply IH.
    intros r' Hr'. rewrite <- (Forall2_length _ _ _ Hone). apply Hrows. by right.
Qed.

Lemma process_transactions_evolves (guids : option (list string)) (m : Z) (w : World G) :
  Forall2 evolved (transactions w)
    (transactions
       (process_transactions processor now_func customer_of scan_position
          guids m w).2).
Proof.
  apply (process_each_evolves
           (scan (scan_position w guids)
              (query_from (selected guids) 0 (transactions w)))).
  intros r (t & Ht & _)%query_elem_of. by eapply lookup_lt_Some.
Qed.

Lemma update_evolves (g : string) (kwargs : gmap string Z) (w : World G) :
  Forall2 evolved (transactions w) (transactions (update now_func g kwargs w).2).
Proof.
  destruct (list_find (fun t => guid t = g) (transactions w)) as [[i t]|] eqn:Hfind.
  - assert (Hi : transactions w !! i = Some t).
    { by apply list_find_Some in Hfind as (? & _). }
    rewrite (update_found _ _ _ _ _ _ Hfind).
    repeat case_match; simpl;
      (eapply evolved_rows_insert; [done|]); unfold evolved; simpl; auto 10.
  - rewrite (update_not_found now_func g kwargs w).
    + apply evolved_rows_refl.
    + by apply list_find_guid_None.
Qed.


Lemma perform_cases (c : Call) (w : World G) :
  let w' := (perform processor now_func make_guid customer_of scan_position c w).2 in
  Forall2 evolved (transactions w) (transactions w')
  \/ exists subscription ty amount scheduled_at uri target,
       acceptable ty uri target (transactions w)
       /\ transactions w'
          = transactions w
            ++ [created now_func make_guid subscription ty amount scheduled_at
                  uri target w].
Proof.
  destruct c as [subscription ty amount scheduled_at uri target|g kwargs|g m|guids m];
    simpl.
  -     destruct (acceptable_cases ty uri target (transactions w)) as [Hok|Hno].
    + right. exists subscription, ty, amount, scheduled_at, uri, target.
      split; [done|]. unfold bind.
      by rewrite (create_accepted now_func make_guid _ _ _ _ _ _ _ Hok).
    + left. unfold bind.
      destruct (create_rejected now_func make_guid subscription ty amount
                  scheduled_at uri target w Hno) as (e & -> & _).
      apply evolved_rows_refl.
  - left. apply update_evolves.
  - left. unfold bind, get.
    destruct (list_find _ _) as [[i t]|] eqn:Hfind; simpl.
    + apply process_one_evolves with t. by apply list_find_Some in Hfind as (? & _).
    + apply evolved_rows_refl.
  - left. unfold bind.
    pose proof (process_transactions_evolves guids m w) as Hev.
    by destruct (process_transactions _ _ _ _ _ _ _) as [[l|e] w1].
Qed.

(** The table-wide forms of the two rules. *)
Lemma list_find_evolved (g : string) (l l' : list Transaction) (i : nat)
    (x : Transaction) :
  Forall2 evolved l l' ->
  list_find (fun t => guid t = g) l = Some (i, x) ->
  exists x', list_find (fun t => guid t = g) l' = Some (i, x') /\ evolved x x'.
Proof.
  intros Hev. revert i. induction Hev as [|t t' l l' Ht Hev IH]; intros i; [done|].
  simpl. destruct Ht as (Hg & Hrest). rewrite Hg.
  destruct (decide (guid t = g)).
  - intros [= <- <-]. exists t'. split; [done|]. by split.
  - destruct (list_find _ l) as [[j y]|] eqn:Hfind; simpl; [|done].
    intros [= <- <-]. destruct (IH j eq_refl) as (x' & -> & Hx).
    exists x'. by split.
Qed.

Lemma refund_target_rule_evolved (l l' : list Transaction) :
  Forall2 evolved l l' ->
  (forall t, t ∈ l -> refund_target_rule l t) ->
  forall t', t' ∈ l' -> refund_target_rule l' t'.
Proof.
  intros Hev Hrule t' [i Hi]%list_elem_of_lookup_1.
  destruct (Forall2_lookup_r _ _ _ _ _ Hev Hi) as (t & Ht & Htt').
  destruct (Hrule t (list_elem_of_lookup_2 _ _ _ Ht)) as [H1 H2].
  destruct Htt' as (Hg & Hty & Hu & Hr & _).
  split.
  - rewrite Hty, Hr. apply H1.
  - intros g Hg'. rewrite Hr in Hg'.
    destruct (H2 g Hg') as (Hrt & Hnu & j & rt & Hfind & Hch).
    rewrite Hty, Hu. split; [done|]. split; [done|].
    destruct (list_find_evolved g l l' j rt Hev Hfind) as (rt' & Hfind' & Hrt').
    exists j, rt'. split; [done|]. destruct Hrt' as (_ & -> & _). done.
Qed.

Lemma refund_target_rule_created (rows : list Transaction) (t : Transaction) :
  acceptable (transaction_type t) (payment_uri t) (refund_to_guid t) rows ->
  (forall x, x ∈ rows -> refund_target_rule rows x) ->
  forall x, x ∈ rows ++ [t] -> refund_target_rule (rows ++ [t]) x.
Proof.
  intros [Hty Hok] Hrule x Hx.
  assert (Hgrow : forall y, refund_target_rule rows y ->
                            refund_target_rule (rows ++ [t]) y).
  { intros y [H1 H2]. split; [done|]. intros g Hg.
    destruct (H2 g Hg) as (? & ? & j & rt & Hfind & ?).
    split; [done|]. split; [done|]. exists j, rt. split; [|done].
    by apply list_find_app_l. }
  apply elem_of_app in Hx as [Hx|Hx%list_elem_of_singleton].
  - by apply Hgrow, Hrule.
  - subst x. apply Hgrow. split.
    + intros Hnr. destruct (refund_to_guid t); [by destruct Hok|done].
    + intros g Hg. by rewrite Hg in Hok.
Qed.

Lemma message_tracks_failures_evolved (l l' : list Transaction) :
  Forall2 evolved l l' ->
  Forall message_tracks_failures l -> Forall message_tracks_failures l'.
Proof.
  intros Hev Hall. rewrite Forall_forall in Hall |- *.
  intros t' [i Hi]%list_elem_of_lookup_1.
  destruct (Forall2_lookup_r _ _ _ _ _ Hev Hi) as (t & Ht & Htt').
  destruct (Hall t (list_elem_of_lookup_2 _ _ _ Ht)) as [H0 Hiff].
  unfold message_tracks_failures.
  destruct Htt' as (_ & _ & _ & _ & [[-> ->]|[Hm Hfc]]).
  - by split.
  - split; [lia|]. split; [lia|done].
Qed.


Lemma run_maintains (calls : list Call) (w : World G) :
  (forall t, t ∈ transactions w -> refund_target_rule (transactions w) t) ->
  Forall message_tracks_failures (transactions w) ->
  let w' := run processor now_func make_guid customer_of scan_position calls w in
  (forall t, t ∈ transactions w' -> refund_target_rule (transactions w') t)
  /\ Forall message_tracks_failures (transactions w').
Proof.
  revert w. induction calls as [|c calls IH]; intros w Hrefund Hmsg; [done|].
  simpl. apply IH.
  - destruct (perform_cases c w) as [Hev|(sub & ty & am & sch & uri & tg & Hok & ->)].
    + by apply (refund_target_rule_evolved (transactions w)).
    + by apply refund_target_rule_created.
  - destruct (perform_cases c w) as [Hev|(sub & ty & am & sch & uri & tg & Hok & ->)].
    + by apply (message_tracks_failures_evolved (transactions w)).
    + apply Forall_app. split; [done|]. apply Forall_singleton.
      split; simpl; [done|]. split; [by intros [? ?]|lia].
Qed.

(** C9, as the code has it: in every session grown from an empty table by
    calls of create, update, process_one and process_transactions, a record
    whose type is not refund has no refund target, and a record with a
    refund target is a refund without payment uri whose target is a stored
    charge. *)
Theorem refund_targets_maintained (calls : list Call) (w0 : World G) :
  transactions w0 = [] ->
  let w := run processor now_func make_guid customer_of scan_position calls w0 in
  forall t, t ∈ transactions w -> refund_target_rule (transactions w) t.
Proof.
  intros H0. apply run_maintains; rewrite H0; [by intros ? ?%elem_of_nil|done].
Qed.

(** C10, as the code has it: in every session grown from an empty table by
    calls of create, update, process_one and process_transactions, a record
    carries an error message exactly when it has a failed attempt behind it
    (a positive failure count), whatever its status is now. *)
Theorem messages_track_failures (calls : list Call) (w0 : World G) :
  transactions w0 = [] ->
  let w := run processor now_func make_guid customer_of scan_position calls w0 in
  forall t, t ∈ transactions w -> message_tracks_failures t.
Proof.
  intros H0 w. apply Forall_forall.
  apply run_maintains; rewrite H0; [by intros ? ?%elem_of_nil|done].
Qed.

End Evolution.

(** ** The scenarios of the specification *)

(** Scenario A: a created charge is in status init with no failures; a
    successful attempt finishes it; a second attempt is rejected. *)
Example scenario_A :
  let w1 := (create Scenario.clock_reading Scenario.guid_of_seed "SU1"
               TYPE_CHARGE 1000 0 (Some "/cards/1") None (Scenario.start tt)).2 in
  let w2 := (Scenario.process_accepted w1).2 in
  (status <$> transactions w1 !! 0%nat = Some STATUS_INIT
   /\ failure_count <$> transactions w1 !! 0%nat = Some 0%Z)
  /\ (status <$> transactions w2 !! 0%nat = Some STATUS_DONE
      /\ external_id <$> transactions w2 !! 0%nat = Some (Some "CH1"))
  /\ (Scenario.process_accepted w2).1
     = Raises (Exception ValueError "Cannot process a finished transaction TX0").
Proof. vm_compute. repeat split. Qed.

(** Scenario B: with [maximum_retry = 2] and a gateway that always fails,
    the record is retrying after one and two attempts and failed after the
    third. *)
Example scenario_B :
  let w0 := Scenario.holding [Scenario.pending_charge] tt in
  let w1 := (Scenario.process_declined w0).2 in
  let w2 := (Scenario.process_declined w1).2 in
  let w3 := (Scenario.process_declined w2).2 in
  (fun t => (status t, failure_count t)) <$> transactions w1 !! 0%nat
  = Some (STATUS_RETRYING, 1%Z)
  /\ (fun t => (status t, failure_count t)) <$> transactions w2 !! 0%nat
     = Some (STATUS_RETRYING, 2%Z)
  /\ (fun t => (status t, failure_count t)) <$> transactions w3 !! 0%nat
     = Some (STATUS_FAILED, 3%Z).
Proof. vm_compute. repeat split. Qed.

(** Scenario C: a refund whose target is not a charge is rejected before
    any record is created. *)
Example scenario_C :
  let w0 := Scenario.holding
              [Scenario.fresh "TX0" TYPE_PAYOUT (Some "/banks/1") 1000] tt in
  create Scenario.clock_reading Scenario.guid_of_seed "SU1" TYPE_REFUND 500 0
    None (Some "TX0") w0
  = (Raises (Exception ValueError "Only charge transaction can be refunded"), w0).
Proof. vm_compute. reflexivity. Qed.

(** A type outside the three known ones, stored in the table, leaves
    [method] unbound, and the resulting error is absorbed like a gateway
    failure. *)
Example unknown_type_is_absorbed :
  let w0 := Scenario.holding [Scenario.fresh "TX0" 7 (Some "/cards/1") 1000] tt in
  let res := Scenario.process_accepted w0 in
  res.1 = Returns tt
  /\ error_message <$> transactions res.2 !! 0%nat
     = Some (Some "local variable 'method' referenced before assignment").
Proof. vm_compute. repeat split. Qed.

(** ** Where the code departs from the specification *)

(** C7 at the table of [Scenario.shuffled]: under a database that scans the
    rows in the order of their insertion, the records are visited in an
    order that follows neither the creation times nor the guids; under a
    database that scans them backwards, the same records are visited in
    another order. *)
Lemma process_transactions_ignores_order :
  let w := Scenario.holding Scenario.shuffled tt in
  let visited := filter (fun t => selected None t = true) (transactions w) in
  (process_transactions Scenario.accepting Scenario.clock_reading
     Scenario.sole_customer Scenario.insertion_order None 10 w).1
  = Returns (guid <$> visited)
  /\ guid <$> visited = ["TXb"; "TXa"; "TXc"]
  /\ (process_transactions Scenario.accepting Scenario.clock_reading
        Scenario.sole_customer Scenario.latest_first None 10 w).1
     = Returns ["TXc"; "TXa"; "TXb"]
  /\ ~ (StronglySorted (fun a b => (created_at a <= created_at b)%Z) visited
        \/ StronglySorted (fun a b => String.leb (guid a) (guid b) = true) visited
        \/ StronglySorted (fun a b => String.leb (guid b) (guid a) = true) visited).
Proof.
  split; [vm_compute; reflexivity|]. split; [vm_compute; reflexivity|].
  split; [vm_compute; reflexivity|].
  intros [H|[H|H]]; apply (bool_decide_pack _) in H; vm_compute in H; done.
Qed.

(** C1 at a charge the gateway declines with a byte-string message outside
    ASCII: [unicode(e)] raises in the handler, after the status has been
    assigned and before the count is raised.  The record is left retrying
    with the failure count it had, 0, where one failed attempt has been
    made. *)
Lemma undecodable_failure_skips_count :
  let w := Scenario.holding [Scenario.pending_charge] tt in
  let res := process_one Scenario.garbling Scenario.clock_reading
               Scenario.sole_customer 0 2 w in
  (gateway_attempt Scenario.garbling 0 0 (tables_now Scenario.clock_reading w).2).1
  = Raises (Exception (OtherError "Declined") (Bytes ("caf" +:+ Scenario.e_acute)))
  /\ fatal (Exception (OtherError "Declined") (Bytes ("caf" +:+ Scenario.e_acute)))
     = false
  /\ (fun t => (status t, failure_count t)) <$> transactions w !! 0%nat
     = Some (STATUS_INIT, 0%Z)
  /\ (fun t => (status t, failure_count t)) <$> transactions res.2 !! 0%nat
     = Some (STATUS_RETRYING, 0%Z).
Proof. vm_compute. repeat split. Qed.

(** C3 at the same charge: the failure is not absorbed.  [process_one]
    raises the decoding error, which is no termination signal; no message is
    stored, and the last thing the session and the gateway have seen is the
    declined charge: the record is not flushed. *)
Lemma undecodable_failure_escapes :
  let w := Scenario.holding [Scenario.pending_charge] tt in
  let res := process_one Scenario.garbling Scenario.clock_reading
               Scenario.sole_customer 0 2 w in
  let declined_charge :=
    Exception (OtherError "Declined") (Bytes ("caf" +:+ Scenario.e_acute)) in
  exists e,
    res.1 = Raises e
    /\ e = Exception UnicodeDecodeError
             "'ascii' codec can't decode byte 0xc3 in position 3: ordinal not in range(128)"
    /\ fatal e = false
    /\ transactions res.2 = [marked Scenario.pending_charge]
    /\ error_message (marked Scenario.pending_charge) = None
    /\ last (trace res.2)
       = Some (EvCharge Scenario.pending_charge (Raises declined_charge))
    /\ Forall (fun ev => match ev with
                         | EvFlush rows _ => rows = [Scenario.pending_charge]
                         | _ => True
                         end) (trace res.2).
Proof.
  eexists. split; [vm_compute; reflexivity|]. split; [reflexivity|].
  vm_compute. repeat split. repeat constructor.
Qed.

(** C6 at three pending charges and the same gateway: the batch raises the
    decoding error, which is no termination signal, while the first record
    is being processed; the two other selected records are never attempted,
    and no list of guids is returned. *)
Lemma undecodable_failure_aborts_batch :
  let w := Scenario.holding Scenario.shuffled tt in
  let res := process_transactions Scenario.garbling Scenario.clock_reading
               Scenario.sole_customer Scenario.insertion_order None 10 w in
  Forall (fun t => selected None t = true) Scenario.shuffled
  /\ exists e,
       res.1 = Raises e
       /\ e = Exception UnicodeDecodeError
                "'ascii' codec can't decode byte 0xc3 in position 3: ordinal not in range(128)"
       /\ fatal e = false
       /\ transactions res.2
          = [marked (Scenario.fresh "TXb" TYPE_CHARGE (Some "/cards/1") 1002);
             Scenario.fresh "TXa" TYPE_CHARGE (Some "/cards/1") 1003;
             Scenario.fresh "TXc" TYPE_CHARGE (Some "/cards/1") 1001].
Proof.
  split; [by repeat constructor|].
  eexists. split; [vm_compute; reflexivity|]. split; [reflexivity|].
  vm_compute. repeat split.
Qed.

(** A failing [update] has already touched the record: the status is
    rejected, yet [updated_at] has moved. *)
Lemma update_failure_touches_record :
  let w := Scenario.holding [Scenario.pending_charge] tt in
  let res := update Scenario.clock_reading "TX0" {[ "status" := 9%Z ]} w in
  (exists e, res.1 = Raises e /\ InvalidArgument e)
  /\ transactions res.2 <> transactions w
  /\ updated_at <$> transactions w !! 0%nat = Some 1000%Z
  /\ updated_at <$> transactions res.2 !! 0%nat = Some 1001%Z.
Proof.
  split; [rejects|]. split; [|split; reflexivity].
  intros H. by apply (f_equal (fun l => updated_at <$> l !! 0%nat)) in H.
Qed.

(** An unknown attribute is rejected after a valid status has been
    assigned. *)
Example update_failure_assigns_status :
  let w := Scenario.holding [Scenario.pending_charge] tt in
  let res := update Scenario.clock_reading "TX0"
               {[ "status" := STATUS_CANCELED; "amount" := 5%Z ]} w in
  (exists e, res.1 = Raises e /\ InvalidArgument e)
  /\ status <$> transactions res.2 !! 0%nat = Some STATUS_CANCELED
  /\ new_events w res.2 = [].
Proof. split; [rejects|]. split; reflexivity. Qed.

(** A refund created without a target is accepted, and may carry a payment
    uri. *)
Lemma refund_rule_broken :
  let w := run Scenario.accepting Scenario.clock_reading Scenario.guid_of_seed
             Scenario.sole_customer Scenario.insertion_order
             [CallCreate "SU1" TYPE_REFUND 500 0 (Some "/cards/1") None]
             (Scenario.start tt) in
  exists t, t ∈ transactions w /\ ~ refund_rule (transactions w) t.
Proof.
  eexists. split; [by left|].
  intros [_ H]. by destruct (H eq_refl) as [? _].
Qed.

Lemma message_rule_broken :
  let w := run (Scenario.flaky [0%nat]) Scenario.clock_reading
             Scenario.guid_of_seed Scenario.sole_customer Scenario.insertion_order
             [CallCreate "SU1" TYPE_CHARGE 1000 0 (Some "/cards/1") None;
              CallProcessOne "TX0" 10; CallProcessOne "TX0" 10]
             (Scenario.start 0%nat) in
  exists t, t ∈ transactions w
            /\ status t = STATUS_DONE
            /\ error_message t = Some "gateway timeout"
            /\ ~ message_rule t.
Proof.
  intros w.
  assert (Hw : exists t, transactions w = [t] /\ status t = STATUS_DONE
                 /\ error_message t = Some "gateway timeout").
  { vm_compute. eexists. split; [reflexivity|]. split; reflexivity. }
  destruct Hw as (t & Hw & Hs & Hm).
  exists t. split; [rewrite Hw; by left|]. split; [done|]. split; [done|].
  unfold message_rule. rewrite Hs, Hm.
  intros H. destruct (H (mk_is_Some _ _ eq_refl)) as [?|?]; discriminate.
Qed.

(** ** Instances of the theorems on the scenarios *)

Lemma process_one_retry_escalation_witness :
  exists t',
    transactions
      (process_one Scenario.declining Scenario.clock_reading
         Scenario.sole_customer 0 2
         (Scenario.holding [Scenario.pending_charge] tt)).2 !! 0%nat = Some t'
    /\ failure_count t' = 1%Z /\ status t' = STATUS_RETRYING.
Proof.
  destruct (process_one_retry_escalation Scenario.declining
              Scenario.clock_reading Scenario.sole_customer 0 2
              (Scenario.holding [Scenario.pending_charge] tt)
              Scenario.pending_charge (OtherError "Declined")
              (Text "card declined") "card declined")
    as (t' & Hl & Hfc & Hle & _);
    [reflexivity | vm_compute; discriminate | vm_compute; reflexivity
    | reflexivity |].
  exists t'. split; [exact Hl|]. split; [exact Hfc|].
  apply Hle. rewrite Hfc. vm_compute. discriminate.
Defined.


Lemma process_one_absorbs_failure_witness :
  (process_one Scenario.declining Scenario.clock_reading Scenario.sole_customer
     0 2 (Scenario.holding [Scenario.pending_charge] tt)).1 = Returns tt
  /\ (process_one Scenario.interrupted Scenario.clock_reading
        Scenario.sole_customer 0 2
        (Scenario.holding [Scenario.pending_charge] tt)).1
     = Raises KeyboardInterrupt.
Proof.
  split.
  - assert (H : status Scenario.pending_charge <> STATUS_DONE)
      by (vm_compute; discriminate).
    apply (process_one_absorbs_failure Scenario.declining
             Scenario.clock_reading Scenario.sole_customer 0 2
             (Scenario.holding [Scenario.pending_charge] tt)
             Scenario.pending_charge
             (Exception (OtherError "Declined") "card declined")
             eq_refl H eq_refl "card declined" eq_refl).
  - apply (process_one_absorbs_failure Scenario.interrupted
             Scenario.clock_reading Scenario.sole_customer 0 2
             (Scenario.holding [Scenario.pending_charge] tt)
             Scenario.pending_charge KeyboardInterrupt);
      [reflexivity | vm_compute; discriminate | vm_compute; reflexivity].
Defined.

Lemma process_one_success_witness :
  let registered_alice :=
    {| customer_guid := "CUalice"; customer_external_id := Some "CU1" |} in
  new_events (Scenario.holding [Scenario.pending_charge] tt)
    (process_one Scenario.accepting Scenario.clock_reading
       Scenario.sole_customer 0 10
       (Scenario.holding [Scenario.pending_charge] tt)).2
  = [EvCreateCustomer Scenario.alice (Returns "CU1");
     EvFlush [Scenario.pending_charge] [registered_alice];
     EvPrepareCustomer registered_alice (Some "/cards/1") (Returns tt);
     EvCharge Scenario.pending_charge (Returns "CH1");
     EvFlush [succeeded "CH1" 1002 Scenario.pending_charge] [registered_alice]].
Proof.
  destruct (process_one_success Scenario.accepting Scenario.clock_reading
              Scenario.sole_customer 0 10
              (Scenario.holding [Scenario.pending_charge] tt)
              Scenario.pending_charge Scenario.alice "CH1")
    as (_ & _ & _ & _ & _ & _ & mv & _ & cid & cu' & _);
    [reflexivity | reflexivity | vm_compute; discriminate
    | vm_compute; reflexivity |].
  vm_compute. reflexivity.
Defined.

Lemma refund_targets_maintained_witness :
  let w := run Scenario.accepting Scenario.clock_reading Scenario.guid_of_seed
             Scenario.sole_customer Scenario.insertion_order
             [CallCreate "SU1" TYPE_CHARGE 1000 0 (Some "/cards/1") None;
              CallCreate "SU1" TYPE_REFUND 400 0 None (Some "TX0");
              CallProcessTransactions None 10]
             (Scenario.start tt) in
  Forall (refund_target_rule (transactions w)) (transactions w).
Proof.
  apply Forall_forall.
  apply (refund_targets_maintained Scenario.accepting Scenario.clock_reading
           Scenario.guid_of_seed Scenario.sole_customer).
  reflexivity.
Defined.

Lemma messages_track_failures_witness :
  let w := run (Scenario.flaky [0%nat]) Scenario.clock_reading
             Scenario.guid_of_seed Scenario.sole_customer Scenario.insertion_order
             [CallCreate "SU1" TYPE_CHARGE 1000 0 (Some "/cards/1") None;
              CallProcessOne "TX0" 10; CallProcessOne "TX0" 10]
             (Scenario.start 0%nat) in
  Forall message_tracks_failures (transactions w).
Proof.
  apply Forall_forall.
  apply (messages_track_failures (Scenario.flaky [0%nat]) Scenario.clock_reading
           Scenario.guid_of_seed Scenario.sole_customer).
  reflexivity.
Defined.

(** * Further properties *)

(** ** More on the batch *)

Section BatchMore.

Context {G : Type}.
Variable processor : Processor G.
Variable now_func : nat -> Z.
Variable customer_of : string -> nat.
Variable scan_position : World G -> option (list string) -> nat -> nat.

(** X1: whatever the outcome of the batch, a termination signal included,
    a record the query does not select is left exactly as it was. *)
Theorem process_transactions_spares_unselected (guids : option (list string))
    (maximum_retry : Z) (w : World G) (r : nat) (t : Transaction) :
  transactions w !! r = Some t ->
  selected guids t = false ->
  transactions
    (process_transactions processor now_func customer_of scan_position guids maximum_retry w).2
    !! r = Some t.
Proof.
  intros Ht Hsel.
  destruct (process_each_spec processor now_func customer_of
              (scan (scan_position w guids)
                 (query_from (selected guids) 0 (transactions w)))
              maximum_retry [] w)
    as (Hframe & _).
  - apply query_NoDup.
  - apply query_rows_valid.
  - rewrite <- Ht. apply Hframe.
    intros (t' & Ht' & Hsel')%query_elem_of. congruence.
Qed.

Lemma query_from_none (keep : Transaction -> bool) (rows : list Transaction) (r : nat) :
  Forall (fun t => keep t = false) rows -> query_from keep r rows = [].
Proof.
  intros Hall. revert r. induction Hall as [|t rows Ht _ IH]; intros r; [done|].
  simpl. by rewrite Ht.
Qed.

(** X2: when the query selects no record, and in particular when an empty
    list of guids is given, [process_transactions] returns the empty list
    and leaves the world as it was: no clock reading, no gateway call, no
    flush. *)
Theorem process_transactions_nothing_to_do (maximum_retry : Z) (w : World G) :
  (forall guids,
     Forall (fun t => selected guids t = false) (transactions w) ->
     process_transactions processor now_func customer_of scan_position guids maximum_retry w
     = (Returns [], w))
  /\ process_transactions processor now_func customer_of scan_position (Some []) maximum_retry w
     = (Returns [], w).
Proof.
  assert (Hnone : forall guids,
            Forall (fun t => selected guids t = false) (transactions w) ->
            process_transactions processor now_func customer_of scan_position guids
              maximum_retry w = (Returns [], w)).
  { intros guids Hall. unfold process_transactions, bind, query.
    by rewrite (query_from_none _ _ _ Hall), scan_nil. }
  split; [done|]. apply Hnone. apply Forall_forall. intros t _.
  unfold selected. apply andb_false_iff. right.
  apply bool_decide_eq_false. by intros ?%elem_of_nil.
Qed.

Lemma process_each_interrupted (rows : list nat) (m : Z) (acc : list string)
    (w : World G) (e : exn) :
  NoDup rows ->
  (forall r, r ∈ rows ->
     exists t, transactions w !! r = Some t /\ status t <> STATUS_DONE) ->
  let res := process_each processor now_func customer_of rows m acc w in
  res.1 = Raises e ->
  exists before r after t,
    rows = before ++ r :: after
    /\ transactions w !! r = Some t
    /\ (forall j x, j ∈ before -> transactions w !! j = Some x ->
          exists x', transactions res.2 !! j = Some x' /\ attempted m x x')
    /\ (forall j, j ∈ after -> transactions res.2 !! j = transactions w !! j)
    /\ ((fatal e = true /\ transactions res.2 !! r = Some t)
        \/ ((exists msg, e = Exception UnicodeDecodeError msg)
            /\ transactions res.2 !! r = Some (marked t))).
Proof.
  revert acc w. induction rows as [|r rows IH]; intros acc w Hnd Hrows res Hres;
    [done|].
  apply NoDup_cons in Hnd as [Hr Hnd].
  destruct (Hrows r) as (t & Ht & Hs); [by left|].
  pose proof (process_one_cases processor now_func customer_of r m w t Ht) as Hone.
  subst res. rewrite process_each_cons in Hres |- *.
  destruct (process_one processor now_func customer_of r m w) as [o w1].
  simpl in Hone.
  destruct Hone as [[Hd _]|[_ [(e' & He & -> & Htx)|[(t' & Hatt & -> & Htx)
                                                    |(msg & -> & Htx)]]]];
    [done| | |].
  - simpl in Hres. injection Hres as <-.
    exists [], r, rows, t. simpl. split; [done|]. split; [done|].
    split; [by intros ?? ?%elem_of_nil|]. split; [intros j _; by rewrite Htx|].
    left. by rewrite Htx.
  - assert (Ht' : transactions w1 !! r = Some t').
    { rewrite Htx. apply list_lookup_insert_eq. by eapply lookup_lt_Some. }
    assert (Hother : forall j, j ∈ rows ->
              transactions w1 !! j = transactions w !! j).
    { intros j Hj. rewrite Htx. apply list_lookup_insert_ne. by intros ->. }
    assert (Hvalid : forall r', r' ∈ rows ->
              exists x, transactions w1 !! r' = Some x /\ status x <> STATUS_DONE).
    { intros r' Hr'. rewrite (Hother r' Hr'). apply Hrows. by right. }
    set (acc' := acc ++ [guid (transactions w1 !!! r)]) in *.
    destruct (IH acc' w1 Hnd Hvalid Hres)
      as (before & r' & after & x & -> & Hx & Hb & Ha & Hat).
    destruct (process_each_spec processor now_func customer_of
                (before ++ r' :: after) m acc' w1 Hnd Hvalid) as (Hframe & _).
    assert (Hr' : r' ∈ before ++ r' :: after)
      by (apply elem_of_app; right; by left).
    exists (r :: before), r', after, x. split; [done|].
    split; [by rewrite <- (Hother r' Hr')|]. split; [|split; [|done]].
    + intros j y [->|Hj]%elem_of_cons Hy.
      * rewrite Ht in Hy. injection Hy as <-. exists t'. split; [|done].
        by rewrite (Hframe r Hr).
      * apply (Hb j y Hj). rewrite Hother; [done|].
        apply elem_of_app. by left.
    + intros j Hj. rewrite (Ha j Hj). apply Hother.
      apply elem_of_app. right. by right.
  - simpl in Hres. injection Hres as <-.
    exists [], r, rows, t. simpl. split; [done|]. split; [done|].
    split; [by intros ?? ?%elem_of_nil|]. split.
    + intros j Hj. rewrite Htx. apply list_lookup_insert_ne. by intros ->.
    + right. split; [by eexists|]. rewrite Htx.
      apply list_lookup_insert_eq. by eapply lookup_lt_Some.
Qed.

(** X3: an error raised by [process_transactions] is raised while some
    selected record is being processed; the records visited before it keep
    the outcome of their attempt, and the ones that were to be visited after
    it are left as they were.  The error is a termination signal, and then
    that record is left as it was too, or it is the decoding error of
    [unicode], and then that record has had its status set to retrying and
    nothing else. *)
Theorem process_transactions_interrupted (guids : option (list string))
    (maximum_retry : Z) (w : World G) (e : exn) :
  let res := process_transactions processor now_func customer_of scan_position
               guids maximum_retry w in
  res.1 = Raises e ->
  exists before r after t,
    scan (scan_position w guids) (query_from (selected guids) 0 (transactions w))
    = before ++ r :: after
    /\ transactions w !! r = Some t
    /\ selected guids t = true
    /\ (forall j x, j ∈ before -> transactions w !! j = Some x ->
          exists x', transactions res.2 !! j = Some x'
                     /\ attempted maximum_retry x x')
    /\ (forall j, j ∈ after -> transactions res.2 !! j = transactions w !! j)
    /\ ((fatal e = true /\ transactions res.2 !! r = Some t)
        \/ ((exists msg, e = Exception UnicodeDecodeError msg)
            /\ transactions res.2 !! r = Some (marked t))).
Proof.
  intros res Hres.
  destruct (process_each_interrupted
              (scan (scan_position w guids)
                 (query_from (selected guids) 0 (transactions w)))
              maximum_retry [] w e (query_NoDup _ _ _)
              (query_rows_valid _ _ _) Hres)
    as (before & r & after & t & Heq & Ht & Hb & Ha & Hat).
  exists before, r, after, t. split; [done|]. split; [done|].
  split; [|done].
  assert (Hr : r ∈ scan (scan_position w guids)
                     (query_from (selected guids) 0 (transactions w))).
  { rewrite Heq. apply elem_of_app. right. by left. }
  apply query_elem_of in Hr as (t' & Ht' & Hsel). congruence.
Qed.

End BatchMore.

(** ** What every call keeps of the stored rows *)

Section RowsRelated.

Context {G : Type}.
Variable processor : Processor G.
Variable now_func : nat -> Z.
Variable make_guid : nat -> string.
Variable customer_of : string -> nat.
Variable scan_position : World G -> option (list string) -> nat -> nat.

(** A relation between a record and its later state that every mutation of
    the module respects. *)
Variable R : Transaction -> Transaction -> Prop.
Hypothesis R_refl : forall t, R t t.
Hypothesis R_trans : forall t1 t2 t3, R t1 t2 -> R t2 t3 -> R t1 t3.
Hypothesis R_attempted : forall m t t', attempted m t t' -> R t t'.
Hypothesis R_marked : forall t, R t (marked t).
Hypothesis R_updated :
  forall now s t, (forall x, s = Some x -> x ∈ STATUS_ALL) -> R t (updated now s t).

Lemma related_rows_refl (rows : list Transaction) : Forall2 R rows rows.
Proof. apply Forall_Forall2_diag, Forall_forall. intros ? _. apply R_refl. Qed.

Lemma related_rows_insert (rows : list Transaction) (r : nat) (t t' : Transaction) :
  rows !! r = Some t -> R t t' -> Forall2 R rows (<[r := t']> rows).
Proof.
  intros Ht Hr. rewrite <- (list_insert_id rows r t Ht) at 1.
  apply Forall2_insert; [apply related_rows_refl|done].
Qed.

Lemma process_one_related (r : nat) (m : Z) (w : World G) (t : Transaction) :
  transactions w !! r = Some t ->
  Forall2 R (transactions w)
    (transactions (process_one processor now_func customer_of r m w).2).
Proof.
  intros Ht.
  destruct (process_one_cases processor now_func customer_of r m w t Ht)
    as [(_ & -> & _)|(_ & [(e & _ & _ & ->)|[(t' & Hatt & _ & ->)|(msg & _ & ->)]])].
  - apply related_rows_refl.
  - apply related_rows_refl.
  - eapply related_rows_insert; [done|]. by eapply R_attempted.
  - eapply related_rows_insert; [done|]. apply R_marked.
Qed.

Lemma process_each_related (rows : list nat) (m : Z) (acc : list string) (w : World G) :
  (forall r, r ∈ rows -> r < length (transactions w)) ->
  Forall2 R (transactions w)
    (transactions (process_each processor now_func customer_of rows m acc w).2).
Proof.
  revert acc w. induction rows as [|r rows IH]; intros acc w Hrows.
  - apply related_rows_refl.
  - rewrite process_each_cons.
    destruct (lookup_lt_is_Some_2 (transactions w) r) as [t Ht];
      [apply Hrows; by left|].
    pose proof (process_one_related r m w t Ht) as Hone.
    destruct (process_one processor now_func customer_of r m w) as [[[]|e] w1];
      simpl in Hone; [|done].
    eapply Forall2_trans; [apply R_trans|done|]. apply IH.
    intros r' Hr'. rewrite <- (Forall2_length _ _ _ Hone). apply Hrows. by right.
Qed.

Lemma process_transactions_related (guids : option (list string)) (m : Z) (w : World G) :
  Forall2 R (transactions w)
    (transactions
       (process_transactions processor now_func customer_of scan_position
          guids m w).2).
Proof.
  apply (process_each_related
           (scan (scan_position w guids)
              (query_from (selected guids) 0 (transactions w)))).
  intros r (t & Ht & _)%(query_elem_of scan_position). by eapply lookup_lt_Some.
Qed.

Lemma update_related (g : string) (kwargs : gmap string Z) (w : World G) :
  Forall2 R (transactions w) (transactions (update now_func g kwargs w).2).
Proof.
  destruct (list_find (fun t => guid t = g) (transactions w)) as [[i t]|] eqn:Hfind.
  - assert (Hi : transactions w !! i = Some t).
    { by apply list_find_Some in Hfind as (? & _). }
    rewrite (update_found _ _ _ _ _ _ Hfind).
    destruct (kwargs !! "status") as [s|]; repeat case_bool_decide; simpl;
      (eapply related_rows_insert; [done|]).
    + by apply (R_updated _ None).
    + apply (R_updated _ (Some s)). by intros ? [= <-].
    + apply (R_updated _ (Some s)). by intros ? [= <-].
    + by apply (R_updated _ None).
    + by apply (R_updated _ None).
  - rewrite (update_not_found now_func g kwargs w).
    + apply related_rows_refl.
    + by apply list_find_guid_None.
Qed.

Lemma perform_related (c : Call) (w : World G) :
  let w' := (perform processor now_func make_guid customer_of scan_position c w).2 in
  Forall2 R (transactions w) (transactions w')
  \/ exists subscription ty amount scheduled_at uri target,
       acceptable ty uri target (transactions w)
       /\ transactions w'
          = transactions w
            ++ [created now_func make_guid subscription ty amount scheduled_at
                  uri target w].
Proof.
  destruct c as [subscription ty amount scheduled_at uri target|g kwargs|g m|guids m];
    simpl.
  - destruct (acceptable_cases ty uri target (transactions w)) as [Hok|Hno].
    + right. exists subscription, ty, amount, scheduled_at, uri, target.
      split; [done|]. unfold bind.
      by rewrite (create_accepted now_func make_guid _ _ _ _ _ _ _ Hok).
    + left. unfold bind.
      destruct (create_rejected now_func make_guid subscription ty amount
                  scheduled_at uri target w Hno) as (e & -> & _).
      apply related_rows_refl.
  - left. apply update_related.
  - left. unfold bind, get.
    destruct (list_find _ _) as [[i t]|] eqn:Hfind; simpl.
    + apply process_one_related with t. by apply list_find_Some in Hfind as (? & _).
    + apply related_rows_refl.
  - left. unfold bind.
    pose proof (process_transactions_related guids m w) as Hev.
    by destruct (process_transactions _ _ _ _ _ _ _) as [[l|e] w1].
Qed.

(** Rows are never removed or moved, and each keeps the relation to what it
    was. *)
Lemma run_related (calls : list Call) (w : World G) :
  exists later,
    Forall2 R (transactions w)
      (take (length (transactions w))
         (transactions (run processor now_func make_guid customer_of scan_position calls w)))
    /\ transactions (run processor now_func make_guid customer_of scan_position calls w)
       = take (length (transactions w))
           (transactions (run processor now_func make_guid customer_of scan_position calls w))
         ++ later.
Proof.
  revert w. induction calls as [|c calls IH]; intros w.
  - exists []. simpl. rewrite firstn_all, app_nil_r.
    split; [apply related_rows_refl|done].
  - simpl. set (w1 := (perform processor now_func make_guid customer_of scan_position c w).2).
    destruct (IH w1) as (later & Hrel & Heq).
    exists (drop (length (transactions w))
              (transactions
                 (run processor now_func make_guid customer_of scan_position
                    calls w1))).
    split; [|by rewrite take_drop].
    destruct (perform_related c w) as [Hone|(sub & ty & am & sch & uri & tg & _ & Hone)];
      fold w1 in Hone.
    + rewrite (Forall2_length _ _ _ Hone).
      eapply Forall2_trans; [apply R_trans|done|done].
    + rewrite Hone in Hrel. rewrite length_app in Hrel. simpl in Hrel.
      apply Forall2_app_inv_l in Hrel as (k1 & k2 & Hk1 & _ & Hk).
      assert (Hlen : length k1 = length (transactions w))
        by (symmetry; by eapply Forall2_length).
      apply (f_equal (take (length (transactions w)))) in Hk.
      rewrite take_take, Nat.min_l in Hk by lia.
      rewrite Hk, take_app_length'; done.
Qed.

Lemma run_row (calls : list Call) (w : World G) (i : nat) (t : Transaction) :
  transactions w !! i = Some t ->
  exists t',
    transactions (run processor now_func make_guid customer_of scan_position calls w)
      !! i = Some t'
    /\ R t t'.
Proof.
  intros Ht. destruct (run_related calls w) as (later & Hrel & Heq).
  destruct (Forall2_lookup_l _ _ _ _ _ Hrel Ht) as (t' & Ht' & Hr).
  exists t'. split; [|done]. rewrite lookup_take_Some in Ht'. by destruct Ht'.
Qed.

End RowsRelated.

Section RowsKept.

Context {G : Type}.
Variable processor : Processor G.
Variable now_func : nat -> Z.
Variable make_guid : nat -> string.
Variable customer_of : string -> nat.
Variable scan_position : World G -> option (list string) -> nat -> nat.

Lemma kept_refl (t : Transaction) : kept t t.
Proof. unfold kept. repeat split; lia. Qed.

Lemma kept_trans (t1 t2 t3 : Transaction) : kept t1 t2 -> kept t2 t3 -> kept t1 t3.
Proof.
  unfold kept. intros (?&?&?&?&?&?&?&?&?) (?&?&?&?&?&?&?&?&?).
  repeat split; try congruence. lia.
Qed.

Lemma kept_attempted (m : Z) (t t' : Transaction) : attempted m t t' -> kept t t'.
Proof.
  intros [(id & now & ->)|(description & now & ->)]; unfold kept; simpl;
    repeat split; lia.
Qed.

Lemma kept_marked (t : Transaction) : kept t (marked t).
Proof. unfold kept. simpl. repeat split; lia. Qed.

Lemma kept_updated (now : Z) (s : option Z) (t : Transaction) :
  (forall x, s = Some x -> x ∈ STATUS_ALL) -> kept t (updated now s t).
Proof. intros _. destruct s; unfold kept; simpl; repeat split; lia. Qed.

(** X7: no call removes or moves a stored record, or changes its guid,
    subscription, type, amount, payment uri, schedule, refund target or
    creation time; and its failure count never decreases. *)
Theorem stored_rows_persist (calls : list Call) (w : World G) (i : nat)
    (t : Transaction) :
  transactions w !! i = Some t ->
  exists t',
    transactions (run processor now_func make_guid customer_of scan_position calls w) !! i
    = Some t'
    /\ kept t t'.
Proof.
  apply run_row.
  - apply kept_refl.
  - apply kept_trans.
  - apply kept_attempted.
  - apply kept_marked.
  - apply kept_updated.
Qed.

Lemma list_find_kept (g : string) (l l' later : list Transaction) (i : nat)
    (x : Transaction) :
  Forall2 kept l l' ->
  list_find (fun t => guid t = g) l = Some (i, x) ->
  exists x', list_find (fun t => guid t = g) (l' ++ later) = Some (i, x')
             /\ kept x x'.
Proof.
  intros Hev. revert i. induction Hev as [|t t' l l' Ht Hev IH]; intros i; [done|].
  simpl. pose proof Ht as (Hg & _). rewrite Hg.
  destruct (decide (guid t = g)).
  - intros [= <- <-]. by exists t'.
  - destruct (list_find _ l) as [[j y]|] eqn:Hfind; simpl; [|done].
    intros [= <- <-]. destruct (IH j eq_refl) as (x' & -> & Hx).
    by exists x'.
Qed.

(** X8: a guid that resolves to a record keeps resolving to the same record
    (the same row, with the same immutable fields) after any history of
    calls. *)
Theorem guid_keeps_resolving (calls : list Call) (w : World G) (g : string)
    (i : nat) (t : Transaction) :
  (get g w).1 = Returns (i, t) ->
  exists t',
    (get g (run processor now_func make_guid customer_of scan_position calls w)).1
    = Returns (i, t')
    /\ kept t t'.
Proof.
  unfold get.
  destruct (list_find _ (transactions w)) as [[j x]|] eqn:Hfind; [|done].
  intros [= -> ->].
  destruct (run_related processor now_func make_guid customer_of scan_position
              kept kept_refl kept_trans kept_attempted kept_marked kept_updated
              calls w)
    as (later & Hrel & Heq).
  destruct (list_find_kept g _ _ later i t Hrel Hfind) as (t' & Hfind' & Hk).
  rewrite <- Heq in Hfind'. exists t'. by rewrite Hfind'.
Qed.

Lemma enumerated_attempted (m : Z) (t t' : Transaction) :
  attempted m t t' -> enumerated t -> enumerated t'.
Proof.
  intros [(id & now & ->)|(description & now & ->)] [Hs Hty]; split; simpl;
    try done.
  - unfold STATUS_ALL. rewrite !elem_of_cons. auto 10.
  - unfold STATUS_ALL. rewrite !elem_of_cons. case_bool_decide; auto 10.
Qed.

Lemma enumerated_marked (t : Transaction) : enumerated t -> enumerated (marked t).
Proof.
  intros [Hs Hty]; split; simpl; [|done].
  unfold STATUS_ALL. rewrite !elem_of_cons. auto 10.
Qed.

Lemma enumerated_updated (now : Z) (s : option Z) (t : Transaction) :
  (forall x, s = Some x -> x ∈ STATUS_ALL) ->
  enumerated t -> enumerated (updated now s t).
Proof.
  intros Hs [Hst Hty]. destruct s as [x|]; split; simpl; try done.
  by apply Hs.
Qed.

(** X9: if every stored record has one of the five statuses and one of the
    three types, so has every record after any history of calls. *)
Theorem enumerations_respected (calls : list Call) (w : World G) :
  Forall enumerated (transactions w) ->
  Forall enumerated
    (transactions (run processor now_func make_guid customer_of scan_position calls w)).
Proof.
  revert w. induction calls as [|c calls IH]; intros w Hall; [done|].
  simpl. apply IH.
  destruct (perform_related processor now_func make_guid customer_of scan_position
              (fun t t' => enumerated t -> enumerated t')) with (c := c) (w := w)
    as [Hrel|(sub & ty & am & sch & uri & tg & Hok & ->)].
  - auto.
  - auto.
  - intros m t t'. apply enumerated_attempted.
  - intros t. apply enumerated_marked.
  - intros now s t. apply enumerated_updated.
  - rewrite Forall_forall in Hall |- *.
    intros t' [i Hi]%list_elem_of_lookup_1.
    destruct (Forall2_lookup_r _ _ _ _ _ Hrel Hi) as (t & Ht & Htt').
    apply Htt', Hall. by eapply list_elem_of_lookup_2.
  - apply Forall_app. split; [done|]. apply Forall_singleton.
    destruct Hok as [Hty _]. split; simpl; [|done].
    unfold STATUS_ALL. rewrite !elem_of_cons. auto 10.
Qed.

End RowsKept.

(** ** Customers are registered once *)

Section Customers.

Context {G : Type}.
Variable processor : Processor G.
Variable now_func : nat -> Z.
Variable make_guid : nat -> string.
Variable customer_of : string -> nat.
Variable scan_position : World G -> option (list string) -> nat -> nat.

Lemma registered_refl (c : Customer) : registered c c.
Proof. by left. Qed.

Lemma registered_trans (c1 c2 c3 : Customer) :
  registered c1 c2 -> registered c2 c3 -> registered c1 c3.
Proof.
  intros [->|(Hn & id & ->)] [->|(Hn' & id' & ->)];
    first [by left | by (right; eauto) | done].
Qed.

Lemma registered_rows_refl (l : list Customer) : Forall2 registered l l.
Proof. apply Forall_Forall2_diag, Forall_forall. intros ? _. apply registered_refl. Qed.

Lemma registered_alter (l : list Customer) (c : nat) (id : string) :
  customer_external_id (l !!! c) = None ->
  Forall2 registered l (alter (set_customer_external_id (Some id)) c l).
Proof.
  revert c. induction l as [|x l IH]; intros [|c] Hn; simpl; try constructor.
  - right. eauto.
  - apply registered_rows_refl.
  - apply registered_refl.
  - by apply IH.
Qed.

Lemma settled_refl (w : World G) : settled w w.
Proof.
  split; [apply registered_rows_refl|]. exists []. by rewrite app_nil_r.
Qed.

Lemma settled_trans (w1 w2 w3 : World G) :
  settled w1 w2 -> settled w2 w3 -> settled w1 w3.
Proof.
  intros [Hc (evs & Ht & Hg)] [Hc' (evs' & Ht' & Hg')]. split.
  - eapply Forall2_trans; [apply registered_trans|done|done].
  - exists (evs ++ evs'). split; [by rewrite Ht', Ht, (assoc_L (++))|].
    by apply Forall_app.
Qed.

(** Computations that leave the world settled. *)
Definition settles {A} (m : M G A) : Prop := forall w, settled w (m w).2.

Lemma settles_ret {A} (a : A) : settles (ret a).
Proof. intros w. apply settled_refl. Qed.

Lemma settles_raise {A} (e : exn) : settles (raise (A := A) e).
Proof. intros w. apply settled_refl. Qed.

Lemma settles_bind {A B} (m : M G A) (k : A -> M G B) :
  settles m -> (forall a, settles (k a)) -> settles (bind m k).
Proof.
  intros Hm Hk w. unfold bind. specialize (Hm w).
  destruct (m w) as [[a|e] w1]; simpl in *; [|done].
  eapply settled_trans; [done|]. apply Hk.
Qed.

Lemma settles_try_except {A B} (body : M G A) (handler : exn -> M G B)
    (rest : A -> M G B) :
  settles body -> (forall e, settles (handler e)) -> (forall a, settles (rest a)) ->
  settles (try_except body handler rest).
Proof.
  intros Hb Hh Hr w. unfold try_except. specialize (Hb w).
  destruct (body w) as [[a|e] w1]; simpl in *;
    (eapply settled_trans; [done|]); [apply Hr|apply Hh].
Qed.

Lemma settles_quiet {A} (m : M G A) :
  (forall w, customers (m w).2 = customers w /\ trace (m w).2 = trace w) ->
  settles m.
Proof.
  intros H w. destruct (H w) as [Hc Ht]. split.
  - rewrite Hc. apply registered_rows_refl.
  - exists []. by rewrite Ht, app_nil_r.
Qed.

Lemma settles_tables_now : settles (tables_now now_func).
Proof. by apply settles_quiet. Qed.

Lemma settles_fresh_guid : settles (fresh_guid make_guid).
Proof. by apply settles_quiet. Qed.

Lemma settles_load (r : nat) : settles (load (G := G) r).
Proof. by apply settles_quiet. Qed.

Lemma settles_assign (r : nat) (f : Transaction -> Transaction) :
  settles (assign (G := G) r f).
Proof. by apply settles_quiet. Qed.

Lemma settles_session_add_new (t : Transaction) :
  settles (session_add_new (G := G) t).
Proof. by apply settles_quiet. Qed.

Lemma settles_get (g : string) : settles (get (G := G) g).
Proof.
  apply settles_quiet. intros w. unfold get. by destruct (list_find _ _).
Qed.

Lemma settles_session_flush : settles (session_flush (G := G)).
Proof.
  intros w. split; [apply registered_rows_refl|].
  eexists. split; [done|]. by repeat constructor.
Qed.

Lemma settles_gateway_attempt (tx c : nat) :
  settles (gateway_attempt processor tx c).
Proof.
  intros w.
  unfold gateway_attempt, bind, load_customer, load, assign_customer,
    session_add, session_flush, ret, raise, select_method,
    call_create_customer, call_prepare_customer, call_charge, call_payout,
    call_refund.
  simpl.
  repeat (case_match; simplify_eq/=);
    (split; simpl;
     [first [apply registered_rows_refl | by apply registered_alter]
     |rewrite <- ?(assoc_L (++)); eexists; split; [reflexivity|];
      repeat constructor; done]).
Qed.


Ltac settling :=
  repeat first
    [ apply settles_ret | apply settles_raise | apply settles_tables_now
    | apply settles_fresh_guid | apply settles_load | apply settles_assign
    | apply settles_session_add_new | apply settles_get
    | apply settles_session_flush | apply settles_gateway_attempt
    | apply settles_bind; [|intros ?]
    | apply settles_try_except; [| intros ? | intros ?]
    | case_bool_decide | case_match ].

Lemma settles_process_one (r : nat) (m : Z) :
  settles (process_one processor now_func customer_of r m).
Proof.
  unfold process_one, record_failure, record_success, session_add. settling.
Qed.

Lemma settles_process_each (rows : list nat) (m : Z) (acc : list string) :
  settles (process_each processor now_func customer_of rows m acc).
Proof.
  revert acc. induction rows as [|r rows IH]; intros acc; simpl.
  - apply settles_ret.
  - apply settles_bind; [apply settles_process_one|]. intros _.
    apply settles_bind; [apply settles_load|]. intros t. apply IH.
Qed.

Lemma settles_process_transactions (guids : option (list string)) (m : Z) :
  settles (process_transactions processor now_func customer_of scan_position guids m).
Proof.
  unfold process_transactions. apply settles_bind.
  - by apply settles_quiet.
  - intros rows. apply settles_process_each.
Qed.

Lemma settles_create (subscription : string) (ty amount scheduled_at : Z)
    (uri target : option string) :
  settles (create now_func make_guid subscription ty amount scheduled_at uri target).
Proof. unfold create. settling. Qed.

Lemma settles_update (g : string) (kwargs : gmap string Z) :
  settles (update now_func g kwargs).
Proof. unfold update, session_add. settling. Qed.

Lemma settles_perform (c : Call) :
  settles (perform processor now_func make_guid customer_of scan_position c).
Proof.
  destruct c; simpl.
  - apply settles_bind; [apply settles_create|]. intros _. apply settles_ret.
  - apply settles_update.
  - apply settles_bind; [apply settles_get|]. intros ?. apply settles_process_one.
  - apply settles_bind; [apply settles_process_transactions|]. intros _.
    apply settles_ret.
Qed.

Lemma settled_run (calls : list Call) (w : World G) :
  settled w (run processor now_func make_guid customer_of scan_position calls w).
Proof.
  revert w. induction calls as [|c calls IH]; intros w; simpl.
  - apply settled_refl.
  - eapply settled_trans; [apply settles_perform|apply IH].
Qed.

(** X4: a customer that has an external id keeps it, unchanged, through
    any history of calls. *)
Theorem registered_customer_stays (calls : list Call) (w : World G) (j : nat)
    (c : Customer) :
  customers w !! j = Some c ->
  is_Some (customer_external_id c) ->
  customers (run processor now_func make_guid customer_of scan_position calls w) !! j = Some c.
Proof.
  intros Hc [id Hid]. destruct (settled_run calls w) as [Hreg _].
  destruct (Forall2_lookup_l _ _ _ _ _ Hreg Hc) as (c' & Hc' & [->|(Hn & _)]);
    [done|congruence].
Qed.

(** X5: through any history of calls, [create_customer] is only ever called
    for a customer that has no external id at that moment, and a customer
    object only changes by gaining the external id it lacked. *)
Theorem create_customer_only_when_unregistered (calls : list Call) (w : World G) :
  Forall guarded
    (new_events w (run processor now_func make_guid customer_of scan_position calls w))
  /\ Forall2 registered (customers w)
       (customers (run processor now_func make_guid customer_of scan_position calls w)).
Proof.
  destruct (settled_run calls w) as [Hreg (evs & Ht & Hg)]. split; [|done].
  unfold new_events. by rewrite Ht, drop_app_length.
Qed.

Lemma gateway_attempt_other_customers (tx c j : nat) (w : World G) :
  j <> c ->
  customers (gateway_attempt processor tx c w).2 !! j = customers w !! j.
Proof.
  intros Hj.
  unfold gateway_attempt, bind, load_customer, load, assign_customer,
    session_add, session_flush, ret, raise, select_method,
    call_create_customer, call_prepare_customer, call_charge, call_payout,
    call_refund.
  simpl.
  repeat (case_match; simplify_eq/=);
    first [done | by apply list_lookup_alter_ne].
Qed.

(** X6: [process_one] changes no transaction but the one it is given and no
    customer but that transaction's, and adds or removes none. *)
Theorem process_one_touches_its_own (r : nat) (maximum_retry : Z) (w : World G)
    (t : Transaction) :
  transactions w !! r = Some t ->
  let res := process_one processor now_func customer_of r maximum_retry w in
  (forall j, j <> r -> transactions res.2 !! j = transactions w !! j)
  /\ (forall j, j <> customer_of (subscription_guid t) ->
        customers res.2 !! j = customers w !! j)
  /\ length (transactions res.2) = length (transactions w)
  /\ length (customers res.2) = length (customers w).
Proof.
  intros Ht res.
  assert (Hlen : length (customers res.2) = length (customers w)).
  { destruct (settles_process_one r maximum_retry w) as [Hreg _].
    symmetry. by eapply Forall2_length. }
  assert (Hrows : (forall j, j <> r -> transactions res.2 !! j = transactions w !! j)
                  /\ length (transactions res.2) = length (transactions w)).
  { destruct (process_one_cases processor now_func customer_of r maximum_retry w t Ht)
      as [(_ & Hw & _)|(_ & [(e & _ & _ & Hw)|[(t' & _ & _ & Hw)|(msg & _ & Hw)]])];
      fold res in Hw; rewrite Hw; try done;
      (split; [|by rewrite length_insert]);
      intros j Hj; by apply list_lookup_insert_ne. }
  destruct Hrows as [Hrows Hl]. split; [done|]. split; [|done].
  intros j Hj. subst res.
  destruct (decide (status t = STATUS_DONE)) as [Hs|Hs].
  - by rewrite (process_one_done _ _ _ _ _ _ _ Ht Hs).
  - pose proof (gateway_attempt_other_customers r _ j (tables_now now_func w).2 Hj)
      as Hga.
    destruct (gateway_attempt processor r (customer_of (subscription_guid t))
                (tables_now now_func w).2) as [[id|e] w1] eqn:Hrun; simpl in Hga.
    + by rewrite (process_one_completed _ _ _ _ maximum_retry _ _ _ _ Ht Hs Hrun).
    + destruct (fatal e) eqn:He.
      * destruct (process_one_reraised _ _ _ _ maximum_retry _ _ _ _ Ht Hs Hrun He)
          as [-> _]. done.
      * destruct (unicode e) as [description|e'] eqn:Hu.
        -- by rewrite (process_one_absorbed _ _ _ _ maximum_retry _ _ _ _ _
                         Ht Hs Hrun He Hu).
        -- by rewrite (process_one_garbled _ _ _ _ maximum_retry _ _ _ _ _
                         Ht Hs Hrun Hu).
Qed.

End Customers.

(** ** Retrying against a gateway that keeps failing *)

Section Exhaustion.

Context {G : Type}.
Variable processor : Processor G.
Variable now_func : nat -> Z.
Variable make_guid : nat -> string.
Variable customer_of : string -> nat.
Variable scan_position : World G -> option (list string) -> nat -> nat.

Hypothesis processor_never_fatal : never_fatal processor.
Hypothesis processor_legible : legible_failures processor.
Hypothesis processor_declines : declines processor.

Lemma gateway_attempt_declined (tx c : nat) (w : World G) :
  exists e description,
    (gateway_attempt processor tx c w).1 = Raises e
    /\ fatal e = false /\ unicode e = Returns description.
Proof.
  destruct (gateway_attempt processor tx c w) as [[id|e] w1] eqn:Hrun; simpl.
  - exfalso. revert Hrun.
    unfold gateway_attempt, bind, load_customer, load, assign_customer,
      session_add, session_flush, ret, raise, select_method,
      call_create_customer, call_prepare_customer, call_charge, call_payout,
      call_refund.
    simpl. intros Hrun.
    repeat (case_match; simplify_eq/=);
      match goal with
      | H : charge _ ?g ?t = (Returns _, _) |- _ =>
          destruct (processor_declines g t) as ((? & ? & Hd) & _);
          rewrite H in Hd; discriminate
      | H : payout _ ?g ?t = (Returns _, _) |- _ =>
          destruct (processor_declines g t) as (_ & (? & ? & Hd) & _);
          rewrite H in Hd; discriminate
      | H : refund _ ?g ?t = (Returns _, _) |- _ =>
          destruct (processor_declines g t) as (_ & _ & (? & ? & Hd));
          rewrite H in Hd; discriminate
      end.
  - assert (Hl : legible e).
    { apply (gateway_attempt_legible processor tx c w e processor_legible).
      by rewrite Hrun. }
    destruct Hl as [description Hu]. exists e, description.
    split; [done|]. split; [|done].
    apply (gateway_attempt_never_fatal processor tx c w e processor_never_fatal).
    by rewrite Hrun.
Qed.

Lemma process_one_declined (r : nat) (m : Z) (w : World G) (t : Transaction) :
  transactions w !! r = Some t -> status t <> STATUS_DONE ->
  exists t',
    declined m t t'
    /\ (process_one processor now_func customer_of r m w).1 = Returns tt
    /\ transactions (process_one processor now_func customer_of r m w).2
       = <[r := t']> (transactions w).
Proof.
  intros Ht Hs.
  destruct (gateway_attempt_declined r (customer_of (subscription_guid t))
              (tables_now now_func w).2) as (e & description & Hrun & He & Hu).
  destruct (gateway_attempt processor r _ _) as [o w1] eqn:Hga.
  simpl in Hrun. subst o.
  rewrite (process_one_absorbed _ _ _ _ m _ _ _ _ _ Ht Hs Hga He Hu). simpl.
  eexists. split; [by exists description, (now_func (clock w))|done].
Qed.

Lemma process_each_declined (rows : list nat) (m : Z) (acc : list string)
    (w : World G) :
  NoDup rows ->
  (forall r, r ∈ rows ->
     exists t, transactions w !! r = Some t /\ status t <> STATUS_DONE) ->
  let res := process_each processor now_func customer_of rows m acc w in
  forall r t, r ∈ rows -> transactions w !! r = Some t ->
    exists t', transactions res.2 !! r = Some t' /\ declined m t t'.
Proof.
  revert acc w. induction rows as [|r rows IH]; intros acc w Hnd Hrows res;
    [by intros ?? ?%elem_of_nil|].
  apply NoDup_cons in Hnd as [Hr Hnd].
  destruct (Hrows r) as (t & Ht & Hs); [by left|].
  destruct (process_one_declined r m w t Ht Hs) as (t' & Hd & Ho & Htx).
  subst res. rewrite process_each_cons.
  destruct (process_one processor now_func customer_of r m w) as [o w1].
  simpl in Ho, Htx. subst o.
  assert (Hother : forall j, j ∈ rows ->
            transactions w1 !! j = transactions w !! j).
  { intros j Hj. rewrite Htx. apply list_lookup_insert_ne. by intros ->. }
  assert (Hvalid : forall r', r' ∈ rows ->
            exists x, transactions w1 !! r' = Some x /\ status x <> STATUS_DONE).
  { intros r' Hr'. rewrite (Hother r' Hr'). apply Hrows. by right. }
  set (acc' := acc ++ [guid (transactions w1 !!! r)]).
  destruct (process_each_spec processor now_func customer_of rows m acc' w1
              Hnd Hvalid) as (Hframe & _).
  intros j x [->|Hj]%elem_of_cons Hx.
  - rewrite Ht in Hx. injection Hx as <-. exists t'. split; [|done].
    rewrite (Hframe r Hr), Htx. apply list_lookup_insert_eq.
    by eapply lookup_lt_Some.
  - apply (IH acc' w1 Hnd Hvalid j x Hj). by rewrite Hother.
Qed.

(** One batch: every selected row has a failure absorbed, the others are
    left as they were. *)
Lemma batch_declined (guids : option (list string)) (m : Z) (w : World G)
    (r : nat) (t : Transaction) :
  transactions w !! r = Some t ->
  exists t',
    transactions
      (process_transactions processor now_func customer_of scan_position
         guids m w).2 !! r
    = Some t'
    /\ if selected guids t then declined m t t' else t' = t.
Proof.
  intros Ht.
  set (rows := scan (scan_position w guids)
                 (query_from (selected guids) 0 (transactions w))).
  pose proof (query_NoDup scan_position guids w) as Hnd.
  pose proof (query_rows_valid scan_position guids w) as Hvalid.
  fold rows in Hnd, Hvalid.
  destruct (selected guids t) eqn:Hsel.
  - apply (process_each_declined rows m [] w Hnd Hvalid r t); [|done].
    apply query_elem_of. eauto.
  - exists t. split; [|done].
    destruct (process_each_spec processor now_func customer_of rows m [] w
                Hnd Hvalid) as (Hframe & _).
    rewrite <- Ht. apply Hframe.
    intros (t' & Ht' & Hsel')%query_elem_of. congruence.
Qed.

Lemma selected_all_iff (t : Transaction) :
  selected None t = true
  <-> status t = STATUS_INIT \/ status t = STATUS_RETRYING.
Proof. rewrite selected_status. split; [by intros [? _]|]. by split. Qed.

Lemma batches_spare_failed (n : nat) (m : Z) (w : World G) (i : nat)
    (t : Transaction) :
  transactions w !! i = Some t ->
  selected None t = false ->
  transactions
    (run processor now_func make_guid customer_of scan_position
       (replicate n (CallProcessTransactions None m)) w) !! i = Some t.
Proof.
  revert w. induction n as [|n IH]; intros w Ht Hsel; [done|].
  simpl. apply IH; [|done]. unfold bind.
  destruct (batch_declined None m w i t Ht) as (t' & Ht' & Hcase).
  rewrite Hsel in Hcase. subst t'.
  by destruct (process_transactions _ _ _ _ _ _ _) as [[l|e] w1].
Qed.

(** X10: against a processor whose money movements always fail, that
    raises no termination signal and whose failures all carry a message
    [unicode] renders, [n] batches in a row attempt a pending record until
    its failure count reaches [maximum_retry + 1] and not again: the count
    is [min (count + n) (maximum_retry + 1)], and the status is retrying
    while the count is at most [maximum_retry] and failed from then on. *)
Theorem batches_retry_until_exhausted (n : nat) (maximum_retry : Z)
    (w : World G) (i : nat) (t : Transaction) :
  transactions w !! i = Some t ->
  status t = STATUS_INIT \/ status t = STATUS_RETRYING ->
  (failure_count t <= maximum_retry)%Z ->
  exists t',
    transactions
      (run processor now_func make_guid customer_of scan_position
         (replicate n (CallProcessTransactions None maximum_retry)) w) !! i
    = Some t'
    /\ failure_count t'
       = Z.min (failure_count t + Z.of_nat n) (maximum_retry + 1)
    /\ (0 < n ->
        status t' = if bool_decide (failure_count t + Z.of_nat n > maximum_retry)%Z
                    then STATUS_FAILED else STATUS_RETRYING).
Proof.
  revert w t. induction n as [|n IH]; intros w t Ht Hst Hfc.
  - exists t. split; [done|]. split; [simpl; lia|lia].
  - change (replicate (S n) (CallProcessTransactions None maximum_retry))
      with (CallProcessTransactions None maximum_retry
            :: replicate n (CallProcessTransactions None maximum_retry)).
    cbn [run].
    set (w1 := (perform processor now_func make_guid customer_of scan_position
                  (CallProcessTransactions None maximum_retry) w).2).
    assert (Ht1 : exists t1, transactions w1 !! i = Some t1
                             /\ declined maximum_retry t t1).
    { destruct (batch_declined None maximum_retry w i t Ht) as (t1 & Ht1 & Hcase).
      rewrite (proj2 (selected_all_iff t) Hst) in Hcase.
      exists t1. split; [|done]. subst w1. simpl. unfold bind.
      by destruct (process_transactions _ _ _ _ _ _ _) as [[l|e] w']. }
    destruct Ht1 as (t1 & Ht1 & description & now & ->).
    set (t1 := failed maximum_retry now description t) in *.
    assert (Hfc1 : failure_count t1 = (failure_count t + 1)%Z) by done.
    destruct (decide (failure_count t + 1 > maximum_retry)%Z) as [Hex|Hok].
    + assert (Hs1 : status t1 = STATUS_FAILED).
      { subst t1. simpl. by rewrite bool_decide_true. }
      exists t1. split.
      * apply batches_spare_failed; [done|].
        apply not_true_is_false. rewrite selected_all_iff, Hs1.
        by intros [?|?].
      * split; [rewrite Hfc1; lia|]. intros _.
        rewrite Hs1, bool_decide_true; [done|lia].
    + assert (Hs1 : status t1 = STATUS_RETRYING).
      { subst t1. simpl. by rewrite bool_decide_false. }
      destruct (IH w1 t1 Ht1) as (t' & Ht' & Hfc' & Hst'); [by right|lia|].
      exists t'. split; [done|]. split; [rewrite Hfc', Hfc1; lia|].
      intros _. clear IH. destruct n as [|n].
      * simpl in Ht'. rewrite Ht1 in Ht'. injection Ht' as <-.
        rewrite Hs1, bool_decide_false; [done|lia].
      * rewrite Hst' by lia. rewrite Hfc1.
        repeat case_bool_decide; first [done | lia].
Qed.

End Exhaustion.

(** ** More on creation and update *)

Section CreateMore.

Context {G : Type}.
Variable now_func : nat -> Z.
Variable make_guid : nat -> string.

Lemma get_Returns (g : string) (w : World G) (i : nat) (t : Transaction) :
  (get g w).1 = Returns (i, t) ->
  list_find (fun x => guid x = g) (transactions w) = Some (i, t)
  /\ transactions w !! i = Some t.
Proof.
  unfold get.
  destruct (list_find _ (transactions w)) as [[j x]|] eqn:Hfind; [|done].
  intros [= -> ->]. split; [done|]. by apply list_find_Some in Hfind as (? & _).
Qed.

Lemma list_find_fresh (g : string) (rows : list Transaction) (t : Transaction) :
  (forall x, x ∈ rows -> guid x <> g) -> guid t = g ->
  list_find (fun x => guid x = g) (rows ++ [t]) = Some (length rows, t).
Proof.
  intros Hfresh Hg. apply list_find_app_Some. right.
  split; [lia|]. split; [by apply list_find_guid_None|].
  rewrite Nat.sub_diag. simpl. by rewrite decide_True.
Qed.

(** X11: the guid returned by an accepted [create] resolves, through [get],
    to the record just built, at the end of the table, provided no stored
    record already has that guid. *)
Theorem create_then_get (subscription : string) (ty amount scheduled_at : Z)
    (uri target : option string) (w : World G) :
  acceptable ty uri target (transactions w) ->
  (forall t, t ∈ transactions w -> guid t <> "TX" +:+ make_guid (guid_seed w)) ->
  let res :=
    create now_func make_guid subscription ty amount scheduled_at uri target w in
  exists g,
    res.1 = Returns g
    /\ get g res.2
       = (Returns (length (transactions w),
                   created now_func make_guid subscription ty amount
                     scheduled_at uri target w),
          res.2).
Proof.
  intros Hok Hfresh res. subst res.
  rewrite (create_accepted now_func make_guid _ _ _ _ _ _ _ Hok). simpl.
  eexists. split; [done|]. unfold get. simpl.
  by rewrite (list_find_fresh _ _ _ Hfresh).
Qed.

(** X13: [create] accepts a refund against any stored charge, whatever the
    charge's status, whatever the amounts, and whether or not a refund
    against that charge is already stored. *)
Theorem create_refund_unrestricted (subscription : string)
    (amount1 amount2 scheduled_at : Z) (g : string) (w : World G) (i : nat)
    (target : Transaction) :
  (get g w).1 = Returns (i, target) ->
  transaction_type target = TYPE_CHARGE ->
  let res1 := create now_func make_guid subscription TYPE_REFUND amount1
                scheduled_at None (Some g) w in
  let res2 := create now_func make_guid subscription TYPE_REFUND amount2
                scheduled_at None (Some g) res1.2 in
  (exists g1, res1.1 = Returns g1)
  /\ (exists g2, res2.1 = Returns g2)
  /\ exists t1 t2,
       transactions res2.2 = transactions w ++ [t1; t2]
       /\ refund_to_guid t1 = Some g /\ amount t1 = amount1
       /\ refund_to_guid t2 = Some g /\ amount t2 = amount2.
Proof.
  intros [Hfind Hi]%get_Returns Hch res1 res2.
  assert (Hok : forall rows, list_find (fun t => guid t = g) rows = Some (i, target) ->
                  acceptable TYPE_REFUND None (Some g) rows).
  { intros rows Hrows. split; [unfold TYPE_ALL; rewrite !elem_of_cons; auto|].
    split; [done|]. split; [done|]. eauto. }
  subst res2 res1.
  rewrite (create_accepted now_func make_guid _ _ _ _ _ _ _ (Hok _ Hfind)). simpl.
  match goal with
  | |- context [create _ _ _ _ _ _ _ _ ?w1] =>
      rewrite (create_accepted now_func make_guid subscription TYPE_REFUND
                 amount2 scheduled_at None (Some g) w1)
        by (apply Hok; simpl; by apply list_find_app_l)
  end.
  simpl. split; [by eexists|]. split; [by eexists|].
  eexists _, _. rewrite <- (assoc_L (++)). by repeat split.
Qed.

(** X12: an [update] rejected for its status flushes nothing, but the
    [updated_at] it has already assigned is written out by the flush of the
    next accepted [create]. *)
Theorem failed_update_is_flushed_later (g : string) (kwargs : gmap string Z)
    (s : Z) (w : World G) (i : nat) (t : Transaction)
    (subscription : string) (ty amount scheduled_at : Z)
    (uri target : option string) :
  (get g w).1 = Returns (i, t) ->
  kwargs !! "status" = Some s ->
  s ∉ STATUS_ALL ->
  let res1 := update now_func g kwargs w in
  acceptable ty uri target (transactions res1.2) ->
  let res2 := create now_func make_guid subscription ty amount scheduled_at
                uri target res1.2 in
  (exists e, res1.1 = Raises e /\ InvalidArgument e)
  /\ new_events w res1.2 = []
  /\ exists rows people,
       last (trace res2.2) = Some (EvFlush rows people)
       /\ rows !! i = Some (set_updated_at (now_func (clock w)) t).
Proof.
  intros [Hfind Hi]%get_Returns Hs Hbad res1 Hok res2.
  subst res2. rewrite (create_accepted now_func make_guid _ _ _ _ _ _ _ Hok).
  revert Hok. subst res1. rewrite (update_found _ _ _ _ _ _ Hfind), Hs.
  rewrite bool_decide_true by done. simpl. intros Hok.
  split; [rejects|]. split; [unfold new_events; by rewrite drop_all|].
  eexists _, _. split; [by rewrite last_snoc|].
  rewrite lookup_app_l by (rewrite length_insert; by eapply lookup_lt_Some).
  apply list_lookup_insert_eq. by eapply lookup_lt_Some.
Qed.

(** X14: [update] checks no transition: it puts a record of any status, a
    finished one included, back to init, which makes the unfiltered batch
    select it again; external id, failure count and error message stay. *)
Theorem update_reopens_any_record (g : string) (w : World G) (i : nat)
    (t : Transaction) :
  (get g w).1 = Returns (i, t) ->
  let res := update now_func g {[ "status" := STATUS_INIT ]} w in
  res.1 = Returns tt
  /\ exists t',
       transactions res.2 !! i = Some t'
       /\ selected None t' = true
       /\ external_id t' = external_id t
       /\ failure_count t' = failure_count t
       /\ error_message t' = error_message t.
Proof.
  intros [Hfind Hi]%get_Returns res.
  subst res. rewrite (update_found _ _ _ _ _ _ Hfind).
  rewrite lookup_singleton_eq.
  rewrite bool_decide_false
    by (intros Hn; apply Hn; unfold STATUS_ALL; rewrite !elem_of_cons; auto).
  rewrite delete_singleton_eq, bool_decide_false by (by intros ?).
  simpl. split; [done|]. eexists. split.
  { apply list_lookup_insert_eq. by eapply lookup_lt_Some. }
  done.
Qed.

End CreateMore.

(** ** What the listings return *)

Section ListingProperties.

Context {G : Type}.
Variable plan_guid_of : string -> option string.
Variable company_guid_of : string -> option string.

#[local] Instance newest_first_total : Total newest_first.
Proof. intros t1 t2. unfold newest_first. lia. Qed.

#[local] Instance newest_first_trans : Transitive newest_first.
Proof. intros t1 t2 t3. unfold newest_first. lia. Qed.

Lemma ordered_sorted (rows : list Transaction) :
  StronglySorted newest_first (order_by_created_at_desc rows).
Proof. apply StronglySorted_merge_sort; apply _. Qed.

Lemma ordered_elem_of (rows : list Transaction) (t : Transaction) :
  t ∈ order_by_created_at_desc rows <-> t ∈ rows.
Proof. unfold order_by_created_at_desc. by rewrite merge_sort_Permutation. Qed.

Lemma offset_limit_page (offset limit : option nat) (rows : list Transaction) :
  exists before after, rows = before ++ offset_limit offset limit rows ++ after.
Proof.
  unfold offset_limit. destruct offset as [a|], limit as [b|].
  - exists (take a rows), (drop b (drop a rows)). by rewrite !take_drop.
  - exists (take a rows), []. by rewrite app_nil_r, take_drop.
  - exists [], (drop b rows). by rewrite take_drop.
  - exists [], []. by rewrite app_nil_r.
Qed.

Lemma offset_limit_sorted (offset limit : option nat) (rows : list Transaction) :
  StronglySorted newest_first rows ->
  StronglySorted newest_first (offset_limit offset limit rows).
Proof.
  intros Hs. destruct (offset_limit_page offset limit rows) as (b & a & Heq).
  rewrite Heq in Hs.
  by apply StronglySorted_app_1_r, StronglySorted_app_1_l in Hs.
Qed.

Lemma offset_limit_elem_of (offset limit : option nat) (rows : list Transaction)
    (t : Transaction) :
  t ∈ offset_limit offset limit rows -> t ∈ rows.
Proof.
  intros Ht. destruct (offset_limit_page offset limit rows) as (b & a & ->).
  rewrite !elem_of_app. auto.
Qed.

Lemma offset_limit_length (offset : option nat) (n : nat) (rows : list Transaction) :
  length (offset_limit offset (Some n) rows) <= n.
Proof. unfold offset_limit. rewrite length_take. lia. Qed.

(** What a listing with a given filter returns. *)
Lemma listing_spec (keep : Transaction -> Prop) `{!forall t, Decision (keep t)}
    (offset limit : option nat) (rows : list Transaction) :
  let page := offset_limit offset limit (order_by_created_at_desc (filter keep rows)) in
  (forall t, t ∈ page -> t ∈ rows /\ keep t)
  /\ StronglySorted newest_first page
  /\ (forall n, limit = Some n -> length page <= n)
  /\ (offset = None -> limit = None -> page ≡ₚ filter keep rows).
Proof.
  intros page. split; [|split; [|split]].
  - intros t Ht%offset_limit_elem_of%ordered_elem_of%list_elem_of_filter. tauto.
  - apply offset_limit_sorted, ordered_sorted.
  - intros n ->. apply offset_limit_length.
  - intros -> ->. apply merge_sort_Permutation.
Qed.

Lemma newest_spec (rows : list Transaction) :
  (head (order_by_created_at_desc rows) = None <-> rows = [])
  /\ (forall t, head (order_by_created_at_desc rows) = Some t ->
        t ∈ rows /\ forall x, x ∈ rows -> (created_at x <= created_at t)%Z).
Proof.
  pose proof (ordered_sorted rows) as Hs.
  pose proof (ordered_elem_of rows) as Hin.
  destruct (order_by_created_at_desc rows) as [|h l] eqn:Ho; simpl.
  - assert (Hnil : rows = []).
    { destruct rows as [|x rows]; [done|].
      exfalso. apply (elem_of_nil x), Hin. by left. }
    split; [done|]. done.
  - split.
    + split; [done|]. intros Hnil. rewrite Hnil in Hin.
      exfalso. apply (elem_of_nil h), Hin. by left.
    + intros t [= <-]. split; [apply Hin; by left|].
      intros x [->|Hx]%Hin%elem_of_cons; [done|].
      apply StronglySorted_cons in Hs as [Hall _].
      rewrite Forall_forall in Hall. by apply Hall.
Qed.

(** X15: [get_last_transaction] leaves the world as it was, returns nothing
    exactly when the table is empty, and otherwise returns a stored record
    whose creation time no stored record exceeds. *)
Theorem get_last_transaction_newest (w : World G) :
  let res := get_last_transaction w in
  res.2 = w
  /\ (res.1 = Returns None <-> transactions w = [])
  /\ (forall t, res.1 = Returns (Some t) ->
        t ∈ transactions w
        /\ forall x, x ∈ transactions w -> (created_at x <= created_at t)%Z).
Proof.
  unfold get_last_transaction. simpl. split; [done|].
  destruct (newest_spec (transactions w)) as [Hnone Hsome]. split.
  - rewrite <- Hnone. split; [by intros [= ->]|by intros ->].
  - intros t [= Ht]. by apply Hsome.
Qed.

(** X18: after an accepted [create] whose timestamp is later than the
    creation time of every stored record, [get_last_transaction] returns
    the record just created. *)
Theorem create_then_get_last (now_func : nat -> Z) (make_guid : nat -> string)
    (subscription : string) (ty amount scheduled_at : Z)
    (uri target : option string) (w : World G) :
  acceptable ty uri target (transactions w) ->
  (forall x, x ∈ transactions w -> (created_at x < now_func (clock w))%Z) ->
  (get_last_transaction
     (create now_func make_guid subscription ty amount scheduled_at uri target w).2).1
  = Returns (Some (created now_func make_guid subscription ty amount
                     scheduled_at uri target w)).
Proof.
  intros Hok Hlater.
  rewrite (create_accepted now_func make_guid _ _ _ _ _ _ _ Hok).
  unfold get_last_transaction. simpl.
  set (t := created now_func make_guid subscription ty amount scheduled_at
              uri target w).
  destruct (newest_spec (transactions w ++ [t])) as [Hnone Hsome].
  destruct (head (order_by_created_at_desc (transactions w ++ [t]))) as [h|].
  - destruct (Hsome h eq_refl) as [Hin Hmax].
    apply elem_of_app in Hin as [Hin|Hin]; [|by apply list_elem_of_singleton in Hin as ->].
    specialize (Hlater h Hin).
    assert (created_at t <= created_at h)%Z
      by (apply Hmax, elem_of_app; right; by left).
    subst t. simpl in *. lia.
  - by destruct (transactions w); specialize (proj1 Hnone eq_refl).
Qed.

(** X16: [list_by_subscription_guid] leaves the world as it was; every
    record of the page is a stored record of that subscription; the page is
    ordered by creation time, newest first; it is no longer than the limit;
    and without offset and limit it holds each record of the subscription
    exactly once. *)
Theorem list_by_subscription_guid_page (subscription : string)
    (offset limit : option nat) (w : World G) :
  exists page,
    list_by_subscription_guid subscription offset limit w = (Returns page, w)
    /\ (forall t, t ∈ page ->
          t ∈ transactions w /\ subscription_guid t = subscription)
    /\ StronglySorted newest_first page
    /\ (forall n, limit = Some n -> length page <= n)
    /\ (offset = None -> limit = None ->
        page ≡ₚ filter (fun t => subscription_guid t = subscription) (transactions w)).
Proof.
  eexists. split; [reflexivity|].
  apply (listing_spec (fun t => subscription_guid t = subscription)).
Qed.

(** X17: [list_by_company_guid] leaves the world as it was; every record of
    the page is a stored record whose subscription has a plan of that
    company; the page is ordered by creation time, newest first; it is no
    longer than the limit; and without offset and limit it holds exactly the
    stored records of the company. *)
Theorem list_by_company_guid_page (company : string)
    (offset limit : option nat) (w : World G) :
  exists page,
    list_by_company_guid plan_guid_of company_guid_of company offset limit w
    = (Returns page, w)
    /\ (forall t, t ∈ page ->
          t ∈ transactions w
          /\ exists plan, plan_guid_of (subscription_guid t) = Some plan
                          /\ company_guid_of plan = Some company)
    /\ StronglySorted newest_first page
    /\ (forall n, limit = Some n -> length page <= n)
    /\ (offset = None -> limit = None ->
        forall t, t ∈ page <->
          t ∈ transactions w
          /\ company_of plan_guid_of company_guid_of t = Some company).
Proof.
  eexists. split; [reflexivity|].
  destruct (listing_spec
              (fun t => company_of plan_guid_of company_guid_of t = Some company)
              offset limit (transactions w)) as (H1 & H2 & H3 & H4).
  split; [|split; [done|split; [done|]]].
  - intros t [Hin Hc]%H1. split; [done|]. unfold company_of in Hc.
    destruct (plan_guid_of (subscription_guid t)) as [plan|]; [|done]. eauto.
  - intros Ho Hl t. rewrite (H4 Ho Hl), list_elem_of_filter. tauto.
Qed.

End ListingProperties.

(** ** A record of a type the [if/elif] chain does not know *)

Section UnknownType.

Context {G : Type}.
Variable processor : Processor G.
Variable now_func : nat -> Z.
Variable customer_of : string -> nat.

Lemma gateway_attempt_unknown_type (tx c : nat) (w : World G) (t : Transaction) :
  transactions w !! tx = Some t ->
  transaction_type t ∉ TYPE_ALL ->
  let res := gateway_attempt processor tx c w in
  (forall id, res.1 <> Returns id)
  /\ exists evs, trace res.2 = trace w ++ evs
                 /\ Forall (fun ev => is_movement ev = false) evs.
Proof.
  intros Ht Hty.
  assert (H0 : transaction_type t <> TYPE_CHARGE)
    by (intros H; apply Hty; rewrite H; unfold TYPE_ALL; rewrite !elem_of_cons; auto).
  assert (H1 : transaction_type t <> TYPE_PAYOUT)
    by (intros H; apply Hty; rewrite H; unfold TYPE_ALL; rewrite !elem_of_cons; auto).
  assert (H2 : transaction_type t <> TYPE_REFUND)
    by (intros H; apply Hty; rewrite H; unfold TYPE_ALL; rewrite !elem_of_cons; auto).
  unfold gateway_attempt, bind, load_customer, load, assign_customer,
    session_add, session_flush, ret, raise, select_method,
    call_create_customer, call_prepare_customer, call_charge, call_payout,
    call_refund.
  simpl.
  repeat (case_match; simplify_eq/=);
    rewrite ?(list_lookup_total_correct _ _ _ Ht) in *;
    repeat match goal with
           | H : bool_decide _ = true |- _ => apply bool_decide_eq_true in H
           end;
    try done;
    (split; [done|]);
    rewrite <- ?(assoc_L (++)); eexists;
    (split; [first [reflexivity | symmetry; apply app_nil_r]|]);
    repeat constructor.
Qed.

(** X19: for a stored record whose type is none of the three known ones,
    [process_one] sends no charge, payout or refund to the gateway and never
    finishes the record; when it returns, a failure has been recorded. *)
Theorem process_one_unknown_type (r : nat) (maximum_retry : Z) (w : World G)
    (t : Transaction) :
  transactions w !! r = Some t ->
  status t <> STATUS_DONE ->
  transaction_type t ∉ TYPE_ALL ->
  let res := process_one processor now_func customer_of r maximum_retry w in
  Forall (fun ev => is_movement ev = false) (new_events w res.2)
  /\ exists t',
       transactions res.2 !! r = Some t'
       /\ status t' <> STATUS_DONE
       /\ external_id t' = external_id t
       /\ (res.1 = Returns tt ->
           failure_count t' = (failure_count t + 1)%Z
           /\ is_Some (error_message t')).
Proof.
  intros Ht Hs Hty res.
  destruct (gateway_attempt_unknown_type r (customer_of (subscription_guid t))
              (tables_now now_func w).2 t Ht Hty) as (Hnot & evs & Htr & Hev).
  destruct (gateway_attempt processor r (customer_of (subscription_guid t))
              (tables_now now_func w).2) as [[id|e] w1] eqn:Hrun;
    [by destruct (Hnot id)|].
  simpl in Htr. subst res. destruct (fatal e) eqn:He.
  - destruct (process_one_reraised _ _ _ _ maximum_retry _ _ _ _ Ht Hs Hrun He)
      as [-> Hrows].
    simpl. split.
    + unfold new_events. by rewrite Htr, drop_app_length.
    + exists t. rewrite Hrows. by repeat split.
  - destruct (unicode e) as [description|e'] eqn:Hu.
    + rewrite (process_one_absorbed _ _ _ _ maximum_retry _ _ _ _ _ Ht Hs Hrun He Hu).
      simpl. split.
      * unfold new_events. simpl.
        rewrite Htr, <- (assoc_L (++)), drop_app_length.
        apply Forall_app. split; [done|]. by repeat constructor.
      * eexists. split; [apply list_lookup_insert_eq; by eapply lookup_lt_Some|].
        simpl. split; [by case_bool_decide|]. split; [done|].
        intros _. split; [done|by eexists].
    + rewrite (process_one_garbled _ _ _ _ maximum_retry _ _ _ _ _ Ht Hs Hrun Hu).
      simpl. split.
      * unfold new_events. simpl. by rewrite Htr, drop_app_length.
      * eexists. split; [apply list_lookup_insert_eq; by eapply lookup_lt_Some|].
        simpl. split; [done|]. split; [done|]. done.
Qed.

End UnknownType.

(** ** Instances of the further properties *)

Lemma process_transactions_spares_unselected_witness :
  transactions
    (process_transactions Scenario.declining Scenario.clock_reading
       Scenario.sole_customer Scenario.insertion_order None 2
       (Scenario.holding [Scenario.finished_charge; Scenario.pending_charge] tt)).2
    !! 0%nat = Some Scenario.finished_charge.
Proof.
  apply (process_transactions_spares_unselected Scenario.declining
           Scenario.clock_reading Scenario.sole_customer
           Scenario.insertion_order None 2
           (Scenario.holding [Scenario.finished_charge; Scenario.pending_charge] tt)
           0 Scenario.finished_charge);
    vm_compute; reflexivity.
Defined.

Lemma process_transactions_interrupted_witness :
  let w := Scenario.holding Scenario.shuffled tt in
  let res := process_transactions Scenario.interrupted Scenario.clock_reading
               Scenario.sole_customer Scenario.latest_first None 2 w in
  res.1 = Raises KeyboardInterrupt
  /\ exists before r after t,
       scan (Scenario.latest_first w None)
         (query_from (selected None) 0 (transactions w))
       = before ++ r :: after
       /\ transactions w !! r = Some t
       /\ selected None t = true
       /\ (forall j x, j ∈ before -> transactions w !! j = Some x ->
             exists x', transactions res.2 !! j = Some x' /\ attempted 2 x x')
       /\ (forall j, j ∈ after -> transactions res.2 !! j = transactions w !! j)
       /\ ((fatal KeyboardInterrupt = true /\ transactions res.2 !! r = Some t)
           \/ ((exists msg, KeyboardInterrupt = Exception UnicodeDecodeError msg)
               /\ transactions res.2 !! r = Some (marked t))).
Proof.
  assert (H : (process_transactions Scenario.interrupted Scenario.clock_reading
                 Scenario.sole_customer Scenario.latest_first None 2
                 (Scenario.holding Scenario.shuffled tt)).1
              = Raises KeyboardInterrupt) by (vm_compute; reflexivity).
  split; [exact H|].
  exact (process_transactions_interrupted Scenario.interrupted
           Scenario.clock_reading Scenario.sole_customer Scenario.latest_first
           None 2 (Scenario.holding Scenario.shuffled tt) KeyboardInterrupt H).
Defined.

Lemma registered_customer_stays_witness :
  customers
    (run Scenario.accepting Scenario.clock_reading Scenario.guid_of_seed
       Scenario.sole_customer Scenario.insertion_order
       [CallCreate "SU1" TYPE_CHARGE 1000 0 (Some "/cards/1") None;
        CallProcessTransactions None 10]
       (with_customers [set_customer_external_id (Some "CU9") Scenario.alice]
          (Scenario.start tt))) !! 0%nat
  = Some (set_customer_external_id (Some "CU9") Scenario.alice).
Proof.
  apply (registered_customer_stays Scenario.accepting Scenario.clock_reading
           Scenario.guid_of_seed Scenario.sole_customer);
    [reflexivity | by eexists].
Defined.

Lemma process_one_touches_its_own_witness :
  transactions
    (process_one Scenario.accepting Scenario.clock_reading Scenario.sole_customer
       1 10 (Scenario.holding Scenario.shuffled tt)).2 !! 0%nat
  = Scenario.shuffled !! 0%nat.
Proof.
  destruct (process_one_touches_its_own Scenario.accepting
              Scenario.clock_reading Scenario.sole_customer 1 10
              (Scenario.holding Scenario.shuffled tt)
              (Scenario.fresh "TXa" TYPE_CHARGE (Some "/cards/1") 1003))
    as (Hrows & _); [reflexivity|].
  apply Hrows. discriminate.
Defined.

Lemma stored_rows_persist_witness :
  exists t',
    transactions
      (run (Scenario.flaky [0%nat]) Scenario.clock_reading Scenario.guid_of_seed
         Scenario.sole_customer Scenario.insertion_order
         [CallProcessTransactions None 10;
          CallUpdate "TX0" {[ "status" := STATUS_CANCELED ]};
          CallCreate "SU1" TYPE_PAYOUT 70 0 (Some "/banks/1") None]
         (Scenario.holding [Scenario.pending_charge] 0%nat)) !! 0%nat = Some t'
    /\ kept Scenario.pending_charge t'.
Proof.
  apply (stored_rows_persist (Scenario.flaky [0%nat]) Scenario.clock_reading
           Scenario.guid_of_seed Scenario.sole_customer).
  reflexivity.
Defined.

Lemma guid_keeps_resolving_witness :
  exists t',
    (get "TX0"
       (run (Scenario.flaky [0%nat]) Scenario.clock_reading Scenario.guid_of_seed
          Scenario.sole_customer Scenario.insertion_order
          [CallProcessTransactions None 10;
           CallCreate "SU1" TYPE_PAYOUT 70 0 (Some "/banks/1") None]
          (Scenario.holding [Scenario.pending_charge] 0%nat))).1
    = Returns (0%nat, t')
    /\ kept Scenario.pending_charge t'.
Proof.
  apply (guid_keeps_resolving (Scenario.flaky [0%nat]) Scenario.clock_reading
           Scenario.guid_of_seed Scenario.sole_customer).
  vm_compute. reflexivity.
Defined.

Lemma enumerations_respected_witness :
  Forall enumerated
    (transactions
       (run Scenario.declining Scenario.clock_reading Scenario.guid_of_seed
          Scenario.sole_customer Scenario.insertion_order
          [CallCreate "SU1" TYPE_CHARGE 1000 0 (Some "/cards/1") None;
           CallCreate "SU1" 9 1000 0 None None;
           CallUpdate "TX0" {[ "status" := 8%Z ]};
           CallProcessTransactions None 0]
          (Scenario.start tt))).
Proof.
  apply (enumerations_respected Scenario.declining Scenario.clock_reading
           Scenario.guid_of_seed Scenario.sole_customer).
  constructor.
Defined.

Lemma declining_never_fatal : never_fatal Scenario.declining.
Proof. repeat split; intros; simplify_eq/=; done. Qed.

Lemma declining_legible : legible_failures Scenario.declining.
Proof. repeat split; intros; simplify_eq/=; by eexists. Qed.

Lemma declining_declines : declines Scenario.declining.
Proof. intros g t. simpl. repeat split; by eexists _, _. Qed.

Lemma batches_retry_until_exhausted_witness :
  exists t',
    transactions
      (run Scenario.declining Scenario.clock_reading Scenario.guid_of_seed
         Scenario.sole_customer Scenario.insertion_order
         (replicate 5 (CallProcessTransactions None 2))
         (Scenario.holding [Scenario.pending_charge] tt)) !! 0%nat = Some t'
    /\ failure_count t' = 3%Z
    /\ status t' = STATUS_FAILED.
Proof.
  destruct (batches_retry_until_exhausted Scenario.declining
              Scenario.clock_reading Scenario.guid_of_seed
              Scenario.sole_customer Scenario.insertion_order
              declining_never_fatal declining_legible declining_declines
              5 2 (Scenario.holding [Scenario.pending_charge] tt) 0
              Scenario.pending_charge)
    as (t' & Ht & Hfc & Hst);
    [reflexivity | by left | vm_compute; discriminate |].
  exists t'. split; [exact Ht|]. split; [exact Hfc|].
  apply Hst. lia.
Defined.

Lemma create_then_get_witness :
  exists g,
    (create Scenario.clock_reading Scenario.guid_of_seed "SU1" TYPE_PAYOUT 70 0
       (Some "/banks/1") None
       (Scenario.holding [Scenario.pending_charge] tt)).1 = Returns g
    /\ get g
         (create Scenario.clock_reading Scenario.guid_of_seed "SU1" TYPE_PAYOUT
            70 0 (Some "/banks/1") None
            (Scenario.holding [Scenario.pending_charge] tt)).2
       = (Returns
            (1%nat,
             created Scenario.clock_reading Scenario.guid_of_seed "SU1"
               TYPE_PAYOUT 70 0 (Some "/banks/1") None
               (Scenario.holding [Scenario.pending_charge] tt)),
          (create Scenario.clock_reading Scenario.guid_of_seed "SU1" TYPE_PAYOUT
             70 0 (Some "/banks/1") None
             (Scenario.holding [Scenario.pending_charge] tt)).2).
Proof.
  apply (create_then_get Scenario.clock_reading Scenario.guid_of_seed "SU1"
           TYPE_PAYOUT 70 0 (Some "/banks/1") None
           (Scenario.holding [Scenario.pending_charge] tt)).
  - split; [|exact I]. unfold TYPE_ALL. rewrite !elem_of_cons. auto.
  - intros t Ht. apply list_elem_of_singleton in Ht. rewrite Ht.
    vm_compute. discriminate.
Defined.

Lemma failed_update_is_flushed_later_witness :
  exists rows people,
    last (trace
            (create Scenario.clock_reading Scenario.guid_of_seed "SU1"
               TYPE_PAYOUT 70 0 (Some "/banks/1") None
               (update Scenario.clock_reading "TX0" {[ "status" := 9%Z ]}
                  (Scenario.holding [Scenario.pending_charge] tt)).2).2)
    = Some (EvFlush rows people)
    /\ rows !! 0%nat = Some (set_updated_at 1001 Scenario.pending_charge).
Proof.
  apply (failed_update_is_flushed_later Scenario.clock_reading
           Scenario.guid_of_seed "TX0" {[ "status" := 9%Z ]} 9
           (Scenario.holding [Scenario.pending_charge] tt) 0
           Scenario.pending_charge "SU1" TYPE_PAYOUT 70 0 (Some "/banks/1") None).
  - vm_compute. reflexivity.
  - vm_compute. reflexivity.
  - unfold STATUS_ALL. rewrite !elem_of_cons, elem_of_nil.
    intros [H|[H|[H|[H|[H|[]]]]]]; discriminate H.
  - split; [|exact I]. unfold TYPE_ALL. rewrite !elem_of_cons. auto.
Defined.

Lemma create_refund_unrestricted_witness :
  exists g2,
    (create Scenario.clock_reading Scenario.guid_of_seed "SU1" TYPE_REFUND 5000
       0 None (Some "TX0")
       (create Scenario.clock_reading Scenario.guid_of_seed "SU1" TYPE_REFUND
          900 0 None (Some "TX0")
          (Scenario.holding [Scenario.pending_charge] tt)).2).1 = Returns g2.
Proof.
  apply (create_refund_unrestricted Scenario.clock_reading
           Scenario.guid_of_seed "SU1" 900 5000 0 "TX0"
           (Scenario.holding [Scenario.pending_charge] tt) 0
           Scenario.pending_charge);
    vm_compute; reflexivity.
Defined.

Lemma update_reopens_any_record_witness :
  (update Scenario.clock_reading "TX0" {[ "status" := STATUS_INIT ]}
     (Scenario.holding [Scenario.finished_charge] tt)).1 = Returns tt.
Proof.
  apply (update_reopens_any_record Scenario.clock_reading "TX0"
           (Scenario.holding [Scenario.finished_charge] tt) 0
           Scenario.finished_charge).
  vm_compute. reflexivity.
Defined.

Lemma create_then_get_last_witness :
  (get_last_transaction
     (create Scenario.clock_reading Scenario.guid_of_seed "SU1" TYPE_PAYOUT 70 0
        (Some "/banks/1") None
        (Scenario.holding [Scenario.pending_charge] tt)).2).1
  = Returns
      (Some (created Scenario.clock_reading Scenario.guid_of_seed "SU1"
               TYPE_PAYOUT 70 0 (Some "/banks/1") None
               (Scenario.holding [Scenario.pending_charge] tt))).
Proof.
  apply (create_then_get_last Scenario.clock_reading Scenario.guid_of_seed "SU1"
           TYPE_PAYOUT 70 0 (Some "/banks/1") None
           (Scenario.holding [Scenario.pending_charge] tt)).
  - split; [|exact I]. unfold TYPE_ALL. rewrite !elem_of_cons. auto.
  - intros x Hx. apply list_elem_of_singleton in Hx. rewrite Hx.
    vm_compute. reflexivity.
Defined.

Lemma process_one_unknown_type_witness :
  Forall (fun ev => is_movement ev = false)
    (new_events
       (Scenario.holding [Scenario.fresh "TX0" 7 (Some "/cards/1") 1000] tt)
       (process_one Scenario.accepting Scenario.clock_reading
          Scenario.sole_customer 0 10
          (Scenario.holding [Scenario.fresh "TX0" 7 (Some "/cards/1") 1000] tt)).2).
Proof.
  apply (process_one_unknown_type Scenario.accepting Scenario.clock_reading
           Scenario.sole_customer 0 10
           (Scenario.holding [Scenario.fresh "TX0" 7 (Some "/cards/1") 1000] tt)
           (Scenario.fresh "TX0" 7 (Some "/cards/1") 1000)).
  - reflexivity.
  - vm_compute. discriminate.
  - unfold TYPE_ALL. rewrite !elem_of_cons, elem_of_nil.
    intros [H|[H|[H|[]]]]; discriminate H.
Defined.
